(** * bastok.charset: translation tables between a 256-code native
      character set and Unicode.

    A shallow embedding of [pylib/bastok/charset.py] and the properties of
    its three converters ([Charset], [Unimplemented], [UTCharset]) and of
    the [chrsub] utility.

    Modelling conventions.
    - A Python [int] is a [Z]; a Python [str] is the list of its Unicode
      code points; a [bytes] object is a [list byte].
    - The argument [u] of the character checks is dynamically typed in the
      source ([isinstance(u, str)] is tested), so it is a [pyobj].  Native
      codes are documented as [int] and never type-tested: they are [Z].
    - The dictionaries [_nu] and [_un] are finite maps ([gmap]).
    - A raised exception is a value of [exn]; the formatted text of a
      message is kept only for [NotImplementedError], the other exceptions
      carry the values their message is formatted from.
    - [setchars] mutates [self] and may raise half-way: it is a function
      from the state before to the state after and a result. *)

From Stdlib Require Import ZArith List String Ascii Lia.
From Stdlib.Strings Require Import Byte.
From stdpp Require Import base decidable countable list list_numbers
  gmap fin_sets fin_map_dom.

Local Open Scope Z_scope.

(* ===================================================================== *)
(** ** Python values *)
(* ===================================================================== *)

(** A Python [str]: its sequence of code points. *)
Abbreviation str := (list Z) (only parsing).

(** The values that can be passed where the source expects a character.
    [PyInt] and [PyNone] stand for the objects that are not a [str]. *)
Inductive pyobj : Type :=
  | PyStr (s : str)
  | PyInt (z : Z)
  | PyNone.

#[global] Instance pyobj_eq_dec : EqDecision pyobj.
Proof. solve_decision. Defined.

Definition pyobj_enc (o : pyobj) : list Z + (Z + unit) :=
  match o with
  | PyStr s => inl s
  | PyInt z => inr (inl z)
  | PyNone => inr (inr tt)
  end.

Definition pyobj_dec (x : list Z + (Z + unit)) : pyobj :=
  match x with
  | inl s => PyStr s
  | inr (inl z) => PyInt z
  | inr (inr _) => PyNone
  end.

#[global] Instance pyobj_countable : Countable pyobj.
Proof.
  refine (inj_countable' pyobj_enc pyobj_dec _).
  intros []; reflexivity.
Defined.

(** A code-character pair of a mapping fragment. *)
Abbreviation codechar := (Z * pyobj)%type (only parsing).

(** An ASCII literal of the source as a [str]. *)
Fixpoint lit (s : string) : str :=
  match s with
  | EmptyString => []
  | String a r => Z.of_nat (nat_of_ascii a) :: lit r
  end.

(** The last code point, [sys.maxunicode]. *)
Definition unicode_max : Z := 0x10FFFF.

(** Lexicographic order on [str], as [<] and [>=] compare strings. *)
Fixpoint str_ltb (a b : str) : bool :=
  match a, b with
  | _, [] => false
  | [], _ :: _ => true
  | x :: a', y :: b' =>
      if x <? y then true else if y <? x then false else str_ltb a' b'
  end.

Definition str_geb (a b : str) : bool := negb (str_ltb a b).

(* ===================================================================== *)
(** ** Exceptions and results *)
(* ===================================================================== *)

Inductive exn : Type :=
  (** [ValueError('Bad native char code {:02X}'.format(n))] *)
  | ValueError_bad_native (n : Z)
  (** [ValueError('Unicode char not a str: {}'.format(repr(u)))] *)
  | ValueError_not_str (u : pyobj)
  (** [ValueError('str not length 1: {}'.format(repr(u)))] *)
  | ValueError_not_length_1 (u : pyobj)
  (** [ValueError] of [bytes([v])] or [chr(v)] for [v] out of range *)
  | ValueError_range (v : Z)
  (** [RuntimeError('Incomplete Charset: ...')] with [nlen] and [ulen] *)
  | RuntimeError_incomplete (nlen ulen : nat)
  (** [KeyError] of [self._nu[n]] *)
  | KeyError_nu (n : Z)
  (** [KeyError] of [self._un[u]] *)
  | KeyError_un (u : pyobj)
  (** [NotImplementedError(msg)] *)
  | NotImplementedError (msg : str)
  (** [LookupError('code point {} not replaced'.format(replacement))] *)
  | LookupError (replacement : codechar)
  (** a failed [assert], with the value its message is built from *)
  | AssertionError (arg : pyobj)
  (** [TypeError] of [len] on an object without a length *)
  | TypeError (arg : pyobj).

Inductive result (A : Type) : Type :=
  | Ok (a : A)
  | Raise (e : exn).
Arguments Ok {A} a.
Arguments Raise {A} e.

Definition rbind {A B} (r : result A) (k : A -> result B) : result B :=
  match r with
  | Ok a => k a
  | Raise e => Raise e
  end.

Declare Scope py_scope.
Delimit Scope py_scope with py.
Notation "'let*' x ':=' r 'in' k" := (rbind r (fun x => k))
  (at level 10, x name, r at level 100, k at level 200) : py_scope.
Local Open Scope py_scope.

Definition is_ok {A} (r : result A) : bool :=
  match r with Ok _ => true | Raise _ => false end.

(** [chr(i)]: the one-character string of code point [i], a [ValueError]
    outside the Unicode range. *)
Definition chr (i : Z) : result pyobj :=
  if (i <? 0) || (unicode_max <? i) then Raise (ValueError_range i)
  else Ok (PyStr [i]).

(** [bytes(l)] for a list of integers *)
Definition byte_of_int (v : Z) : result byte :=
  if (v <? 0) || (255 <? v) then Raise (ValueError_range v)
  else match Byte.of_N (Z.to_N v) with
       | Some b => Ok b
       | None => Raise (ValueError_range v)
       end.

Fixpoint bytes (l : list Z) : result (list byte) :=
  match l with
  | [] => Ok []
  | v :: r => let* b := byte_of_int v in let* bs := bytes r in Ok (b :: bs)
  end.

(* ===================================================================== *)
(** ** class Charset *)
(* ===================================================================== *)

Module Charset.

Record t : Type := Make {
  description : str;
  _nu : gmap Z pyobj;   (* native (int) to Unicode (str) map *)
  _un : gmap pyobj Z    (* Unicode (str) to native (int) map *)
}.

(** [self._nu[n] = u] and [self._un[u] = n] *)
Definition set_nu (self : t) (n : Z) (u : pyobj) : t :=
  Make (description self) (<[n := u]> (_nu self)) (_un self).
Definition set_un (self : t) (u : pyobj) (n : Z) : t :=
  Make (description self) (_nu self) (<[u := n]> (_un self)).

(** Raise error if [n] is not a valid native char code. *)
Definition _ncheck (n : Z) : result unit :=
  if (n <? 0) || (n >? 0xFF) then Raise (ValueError_bad_native n)
  else Ok tt.

(** Raise error if [u] is not a single Unicode character. *)
Definition _ucheck (u : pyobj) : result unit :=
  match u with
  | PyStr s =>
      if negb (Nat.eqb (length s) 1) then Raise (ValueError_not_length_1 u)
      else Ok tt
  | _ => Raise (ValueError_not_str u)
  end.

(** [setchars]: the loop over the pairs of [map].  The state returned with
    a [Raise] is what the object holds when the exception leaves. *)
Fixpoint setchars (self : t) (map : list codechar) : t * result unit :=
  match map with
  | [] => (self, Ok tt)
  | (n, u) :: rest =>
      match (let* _ := _ncheck n in _ucheck u) with
      | Raise e => (self, Raise e)
      | Ok _ => setchars (set_un (set_nu self n u) u n) rest
      end
  end.

(** [for m in maps: self.setchars(m)] *)
Fixpoint setchars_all (self : t) (maps : list (list codechar))
  : t * result unit :=
  match maps with
  | [] => (self, Ok tt)
  | m :: rest =>
      match setchars self m with
      | (self', Ok _) => setchars_all self' rest
      | (self', Raise e) => (self', Raise e)
      end
  end.

(** [Charset(description, *maps)] *)
Definition __init__ (description : str) (maps : list (list codechar))
  : result t :=
  match setchars_all (Make description ∅ ∅) maps with
  | (self, Raise e) => Raise e
  | (self, Ok _) =>
      let nlen := size (_nu self) in
      let ulen := size (_un self) in
      if negb (Nat.eqb nlen ulen && Nat.eqb ulen 0x100)
      then Raise (RuntimeError_incomplete nlen ulen)
      else Ok self
  end.

(** [trans]: the Unicode character of native code point [n]. *)
Definition trans (self : t) (n : Z) : result pyobj :=
  let* _ := _ncheck n in
  match _nu self !! n with
  | Some u => Ok u
  | None => Raise (KeyError_nu n)
  end.

(** [native]: the [bytes] holding the native code of character [u]. *)
Definition native (self : t) (u : pyobj) : result (list byte) :=
  let* _ := _ucheck u in
  match _un self !! u with
  | Some n => bytes [n]
  | None => Raise (KeyError_un u)
  end.

End Charset.

(* ===================================================================== *)
(** ** class Unimplemented *)
(* ===================================================================== *)

Module Unimplemented.

Record t : Type := Make {
  name : str;
  description : str
}.

Definition __init__ (name description : str) : t :=
  Make name (description ++ lit " (not yet implemented)").

(** [raise NotImplementedError("charset '{}' ".format(self.name))] *)
Definition unimpl (self : t) : result pyobj :=
  Raise (NotImplementedError (lit "charset '" ++ name self ++ lit "' ")).

(** [def trans(self, n): self.unimpl()], a call followed by the implicit
    [return None].  The argument is never used: it may be of any type. *)
Definition trans {A : Type} (self : t) (n : A) : result pyobj :=
  let* _ := unimpl self in Ok PyNone.

Definition native {A : Type} (self : t) (u : A) : result pyobj :=
  let* _ := unimpl self in Ok PyNone.

End Unimplemented.

(* ===================================================================== *)
(** ** class UTCharset *)
(* ===================================================================== *)

(** [len(u)], [ord(u)] and the comparisons of [u] with a string. *)
Definition len (u : pyobj) : result nat :=
  match u with
  | PyStr s => Ok (length s)
  | _ => Raise (TypeError u)
  end.

Definition ord (u : pyobj) : result Z :=
  match u with
  | PyStr [c] => Ok c
  | _ => Raise (TypeError u)
  end.

Definition py_ge (a b : pyobj) : result bool :=
  match a, b with
  | PyStr x, PyStr y => Ok (str_geb x y)
  | PyStr _, _ => Raise (TypeError b)
  | _, _ => Raise (TypeError a)
  end.

Definition py_lt (a b : pyobj) : result bool :=
  match a, b with
  | PyStr x, PyStr y => Ok (str_ltb x y)
  | PyStr _, _ => Raise (TypeError b)
  | _, _ => Raise (TypeError a)
  end.

Module UTCharset.

(** The class has no attributes: [self] is left out. *)

Definition trans (n : Z) : result pyobj :=
  if negb ((n >=? 0) && (n <? 0x100)) then Raise (AssertionError (PyInt n))
  else chr (0xF000 + n).

(** The three conjuncts of the assertion, evaluated left to right and
    stopping at the first false one. *)
Definition native_cond (u : pyobj) : result bool :=
  let* k := len u in
  if negb (Nat.eqb k 1) then Ok false else
  let* lo := chr 0xF000 in
  let* ge := py_ge u lo in
  if negb ge then Ok false else
  let* hi := chr 0xF100 in
  py_lt u hi.

Definition native (u : pyobj) : result Z :=
  let* c := native_cond u in
  if negb c then Raise (AssertionError u) else
  let* o := ord u in
  Ok (o - 0xF000).

End UTCharset.

(* ===================================================================== *)
(** ** Utility functions *)
(* ===================================================================== *)

(** The loop of [chrsub], on the variables [replaced] and [ret]. *)
Fixpoint chrsub_loop (codechars : list codechar) (replacement : codechar)
    (replaced : bool) (ret : list codechar) : bool * list codechar :=
  match codechars with
  | [] => (replaced, ret)
  | mapping :: rest =>
      if mapping.1 =? replacement.1
      then chrsub_loop rest replacement true (ret ++ [replacement])
      else chrsub_loop rest replacement replaced (ret ++ [mapping])
  end.

Definition chrsub (codechars : list codechar) (replacement : codechar)
  : result (list codechar) :=
  let '(replaced, ret) := chrsub_loop codechars replacement false [] in
  if negb replaced then Raise (LookupError replacement)
  else Ok ret.

(* ===================================================================== *)
(** ** Vocabulary of the properties *)
(* ===================================================================== *)

(** The number of distinct elements of a list. *)
Definition distinct {A} `{EqDecision A} (l : list A) : nat :=
  length (remove_dups l).

Section assignments_def.
Context {K : Type} `{Countable K} {V : Type}.

(** [d[k] = v] for each [(k, v)] of [l], in order. *)
Definition inserts (m : gmap K V) (l : list (K * V)) : gmap K V :=
  foldl (fun m p => <[p.1 := p.2]> m) m l.

(** The value of the last pair of [l] with key [k]. *)
Fixpoint last_value (l : list (K * V)) (k : K) : option V :=
  match l with
  | [] => None
  | p :: r =>
      match last_value r k with
      | Some v => Some v
      | None => if decide (p.1 = k) then Some p.2 else None
      end
  end.

End assignments_def.

(** A pair that passes both checks of [setchars]. *)
Definition valid_pair (p : codechar) : Prop :=
  0 <= p.1 <= 255 /\ exists c, p.2 = PyStr [c].

Definition valid_pairb (p : codechar) : bool :=
  is_ok (let* _ := Charset._ncheck p.1 in Charset._ucheck p.2).

(** The two assignments of one round of the loop. *)
Definition put (self : Charset.t) (p : codechar) : Charset.t :=
  Charset.set_un (Charset.set_nu self p.1 p.2) p.2 p.1.

(** All pairs handed to the constructor, in the order they are applied. *)
Definition pairs_of (maps : list (list codechar)) : list codechar :=
  concat maps.

(** The object the constructor returns when validation passes. *)
Definition built (description : str) (maps : list (list codechar))
  : Charset.t :=
  Charset.Make description
    (inserts ∅ (pairs_of maps))
    (inserts ∅ (prod_swap <$> pairs_of maps)).

(** Tables used as concrete inputs.  [shifted_table] is complete and
    one-to-one: code [i] goes to U+F000+[i]. *)
Definition shifted_table : list codechar :=
  (fun i => (i, PyStr [0xF000 + i])) <$> seqZ 0 256.

(** [[(0,'a'), (0,'b'), (1,'b')] + [(i, chr(0x100+i)) for i in
    range(2, 256)]]: code 0 is assigned twice, and its second character
    is assigned to code 1 as well. *)
Definition stale_table : list codechar :=
  (0, PyStr (lit "a")) :: (0, PyStr (lit "b")) :: (1, PyStr (lit "b")) ::
  ((fun i => (i, PyStr [0x100 + i])) <$> seqZ 2 254).

(** What the loop does to one element. *)
Definition substituted (replacement mapping : codechar) : codechar :=
  if mapping.1 =? replacement.1 then replacement else mapping.

(** The number of positions at which two sequences differ. *)
Definition changed (old new : list codechar) : nat :=
  length (filter (fun p => p.1 <> p.2) (zip old new)).

(** The number of pairs of [codechars] with the code of [replacement]. *)
Definition matches (codechars : list codechar) (replacement : codechar)
  : nat :=
  length (filter (fun m => m.1 = replacement.1) codechars).

(** C5 as the claim words it: whenever the code of the replacement occurs
    in the fragment, the result has the same length and differs from the
    fragment at one position at most. *)
Definition chrsub_changes_at_most_one
    (codechars : list codechar) (replacement : codechar) : Prop :=
  (exists m, m ∈ codechars /\ m.1 = replacement.1) ->
  exists ret, chrsub codechars replacement = Ok ret /\
    length ret = length codechars /\ (changed codechars ret <= 1)%nat.

(** The state of the two dictionaries that updates keep: codes are in
    0..255, characters are one-character strings, and each dictionary has
    a key for every value of the other. *)
Definition table_ok (self : Charset.t) : Prop :=
  (forall n u, Charset._nu self !! n = Some u ->
     0 <= n <= 255 /\ (exists c, u = PyStr [c]) /\
     is_Some (Charset._un self !! u)) /\
  (forall u n, Charset._un self !! u = Some n ->
     0 <= n <= 255 /\ (exists c, u = PyStr [c]) /\
     is_Some (Charset._nu self !! n)).

(** [sub] occurs in [s]. *)
Definition contains (sub s : str) : Prop :=
  exists pre post, s = pre ++ sub ++ post.

(* ===================================================================== *)
(** ** Lemmas: dictionaries filled by a sequence of assignments *)
(* ===================================================================== *)

Section assignments.
Context {K : Type} `{Countable K} {V : Type}.
Implicit Types (m : gmap K V) (l : list (K * V)) (p : K * V) (k : K) (v : V).

Lemma inserts_cons m p l :
  inserts m (p :: l) = inserts (<[p.1 := p.2]> m) l.
Proof. reflexivity. Qed.

Lemma inserts_app m l1 l2 :
  inserts m (l1 ++ l2) = inserts (inserts m l1) l2.
Proof. apply foldl_app. Qed.

Lemma lookup_inserts m l k :
  inserts m l !! k =
  match last_value l k with Some v => Some v | None => m !! k end.
Proof.
  revert m. induction l as [|[k' v] l IH]; intros m; [done|].
  rewrite inserts_cons, IH. simpl.
  destruct (last_value l k); [done|].
  rewrite lookup_insert. by destruct (decide (k' = k)).
Qed.

Lemma last_value_Some l k v :
  last_value l k = Some v -> (k, v) ∈ l.
Proof.
  induction l as [|[k' v'] l IH]; simpl; [done|].
  destruct (last_value l k) eqn:E.
  - intros [= <-]. right. by apply IH.
  - destruct (decide (k' = k)) as [->|]; [|done].
    intros [= <-]. left.
Qed.

Lemma last_value_None l k :
  last_value l k = None <-> k ∉ l.*1.
Proof.
  induction l as [|[k' v'] l IH]; simpl.
  - split; [|done]. intros _. apply not_elem_of_nil.
  - rewrite not_elem_of_cons. destruct (last_value l k) eqn:E.
    + split; [done|]. intros [_ Hn]. by apply IH in Hn.
    + destruct (decide (k' = k)) as [->|Hne].
      * split; [done|]. by intros [? _].
      * split; [|done]. intros _. split; [done|]. by apply IH.
Qed.

Lemma dom_inserts m l :
  dom (inserts m l) = list_to_set l.*1 ∪ dom m.
Proof.
  revert m. induction l as [|[k v] l IH]; intros m.
  - simpl. by rewrite (left_id_L ∅ (∪)).
  - rewrite inserts_cons, IH, dom_insert_L. simpl.
    rewrite !(assoc_L (∪)). f_equal. apply (comm_L (∪)).
Qed.

Lemma size_list_to_set_distinct (l : list K) :
  size (list_to_set l : gset K) = distinct l.
Proof.
  unfold distinct. rewrite <- (size_list_to_set (C := gset K)).
  - f_equal. apply set_eq. intros x.
    rewrite !elem_of_list_to_set. by rewrite elem_of_remove_dups.
  - apply NoDup_remove_dups.
Qed.

Lemma size_inserts_empty l : size (inserts ∅ l) = distinct l.*1.
Proof.
  rewrite <- size_dom, dom_inserts, dom_empty_L, (right_id_L ∅ (∪)).
  apply size_list_to_set_distinct.
Qed.
End assignments.

(* ===================================================================== *)
(** ** Lemmas: the update loop of Charset *)
(* ===================================================================== *)

Lemma ncheck_ok n : 0 <= n <= 255 -> Charset._ncheck n = Ok tt.
Proof.
  intros Hn. unfold Charset._ncheck.
  destruct (n <? 0) eqn:E1; [lia|]. destruct (n >? 255) eqn:E2; [lia|]. done.
Qed.

Lemma ncheck_raise n :
  n < 0 \/ n > 255 -> Charset._ncheck n = Raise (ValueError_bad_native n).
Proof.
  intros Hn. unfold Charset._ncheck.
  destruct (n <? 0) eqn:E1; [done|]. destruct (n >? 255) eqn:E2; [done|]. lia.
Qed.

Lemma ncheck_cases n :
  (0 <= n <= 255 /\ Charset._ncheck n = Ok tt) \/
  ((n < 0 \/ n > 255) /\ Charset._ncheck n = Raise (ValueError_bad_native n)).
Proof.
  destruct (decide (0 <= n <= 255)).
  - left. auto using ncheck_ok.
  - right. split; [lia|]. apply ncheck_raise. lia.
Qed.

Lemma ucheck_ok_iff u : Charset._ucheck u = Ok tt <-> exists c, u = PyStr [c].
Proof.
  split.
  - destruct u as [[|c [|c' s]]| |]; simpl; try done. eauto.
  - by intros [c ->].
Qed.

Lemma check_ok_iff n u :
  (let* _ := Charset._ncheck n in Charset._ucheck u) = Ok tt
  <-> valid_pair (n, u).
Proof.
  unfold valid_pair. simpl. rewrite <- ucheck_ok_iff.
  destruct (ncheck_cases n) as [[Hn ->]|[Hn ->]]; simpl.
  - tauto.
  - split; [done|]. intros [? _]. lia.
Qed.

Lemma valid_pairb_true p : valid_pairb p = true <-> valid_pair p.
Proof.
  destruct p as [n u]. rewrite <- check_ok_iff. unfold valid_pairb. simpl.
  destruct (let* _ := Charset._ncheck n in Charset._ucheck u) as [[]|];
    simpl; split; congruence.
Qed.

Lemma Forall_valid_pairb l :
  forallb valid_pairb l = true -> Forall valid_pair l.
Proof.
  rewrite forallb_forall, Forall_forall. intros Hl p Hp.
  apply valid_pairb_true, Hl. by apply list_elem_of_In.
Qed.

Lemma Forall_Forall_valid_pairb maps :
  forallb (forallb valid_pairb) maps = true ->
  Forall (Forall valid_pair) maps.
Proof.
  rewrite forallb_forall, Forall_forall. intros Hl m Hm.
  apply Forall_valid_pairb, Hl. by apply list_elem_of_In.
Qed.

(** On valid pairs the loop runs to its end. *)
Lemma setchars_valid l self :
  Forall valid_pair l ->
  Charset.setchars self l = (foldl put self l, Ok tt).
Proof.
  intros Hl. revert self.
  induction Hl as [|[n u] l Hp _ IH]; intros self; simpl; [done|].
  apply check_ok_iff in Hp. rewrite Hp. apply IH.
Qed.

(** The loop stops at the first pair that fails a check, with the pairs
    before it assigned. *)
Lemma setchars_first_invalid pre n u post e self :
  Forall valid_pair pre ->
  (let* _ := Charset._ncheck n in Charset._ucheck u) = Raise e ->
  Charset.setchars self (pre ++ (n, u) :: post) = (foldl put self pre, Raise e).
Proof.
  intros Hpre He. revert self.
  induction Hpre as [|[n' u'] l Hp _ IH]; intros self; simpl.
  - by rewrite He.
  - apply check_ok_iff in Hp. rewrite Hp. apply IH.
Qed.

Lemma setchars_ok_inv l self self' x :
  Charset.setchars self l = (self', Ok x) ->
  Forall valid_pair l /\ self' = foldl put self l.
Proof.
  revert self. induction l as [|[n u] l IH]; intros self; simpl.
  - intros [= <-]. by split.
  - destruct (let* _ := Charset._ncheck n in Charset._ucheck u)
      as [[]|e] eqn:E; [|done].
    intros Hs. apply IH in Hs as [Hl ->]. split; [|done].
    constructor; [|done]. by apply check_ok_iff.
Qed.

Lemma setchars_all_valid maps self :
  Forall (Forall valid_pair) maps ->
  Charset.setchars_all self maps = (foldl put self (pairs_of maps), Ok tt).
Proof.
  intros Hm. revert self.
  induction Hm as [|m maps Hv _ IH]; intros self; simpl; [done|].
  rewrite (setchars_valid _ _ Hv), IH.
  unfold pairs_of. simpl. by rewrite foldl_app.
Qed.

Lemma setchars_all_ok_inv maps self self' x :
  Charset.setchars_all self maps = (self', Ok x) ->
  Forall (Forall valid_pair) maps /\ self' = foldl put self (pairs_of maps).
Proof.
  revert self. induction maps as [|m maps IH]; intros self; simpl.
  - intros [= <-]. by split.
  - destruct (Charset.setchars self m) as [s1 [[]|e]] eqn:E; [|done].
    apply setchars_ok_inv in E as [Hv ->].
    intros Hs. apply IH in Hs as [Hm ->]. split; [by constructor|].
    unfold pairs_of. simpl. by rewrite foldl_app.
Qed.

(** The dictionaries after the loop. *)
Lemma foldl_put_description l self :
  Charset.description (foldl put self l) = Charset.description self.
Proof.
  revert self. induction l as [|p l IH]; intros self; simpl; [done|].
  by rewrite IH.
Qed.

Lemma foldl_put_nu l self :
  Charset._nu (foldl put self l) = inserts (Charset._nu self) l.
Proof.
  revert self. induction l as [|p l IH]; intros self; simpl; [done|].
  by rewrite IH.
Qed.

Lemma foldl_put_un l self :
  Charset._un (foldl put self l)
  = inserts (Charset._un self) (prod_swap <$> l).
Proof.
  revert self. induction l as [|[n u] l IH]; intros self; simpl; [done|].
  by rewrite IH.
Qed.

Lemma fst_prod_swap (l : list codechar) : (prod_swap <$> l).*1 = l.*2.
Proof. induction l as [|[n u] l IH]; [done|]. simpl. f_equal. exact IH. Qed.

Lemma foldl_put_built d maps :
  foldl put (Charset.Make d ∅ ∅) (pairs_of maps) = built d maps.
Proof.
  destruct (foldl put _ _) as [d' nu un] eqn:E. unfold built.
  pose proof (foldl_put_description (pairs_of maps) (Charset.Make d ∅ ∅)) as H1.
  pose proof (foldl_put_nu (pairs_of maps) (Charset.Make d ∅ ∅)) as H2.
  pose proof (foldl_put_un (pairs_of maps) (Charset.Make d ∅ ∅)) as H3.
  rewrite E in H1, H2, H3. simpl in *. by subst.
Qed.

(** The constructor on fragments of valid pairs: the lengths it compares
    are the numbers of distinct codes and of distinct characters. *)
Lemma init_valid d maps :
  Forall (Forall valid_pair) maps ->
  Charset.__init__ d maps =
  let nlen := distinct (pairs_of maps).*1 in
  let ulen := distinct (pairs_of maps).*2 in
  if negb (Nat.eqb nlen ulen && Nat.eqb ulen 256)
  then Raise (RuntimeError_incomplete nlen ulen)
  else Ok (built d maps).
Proof.
  intros Hm. unfold Charset.__init__.
  rewrite (setchars_all_valid _ _ Hm), foldl_put_built.
  cbv beta iota zeta. unfold built at 1 2 3 4 5.
  cbn [Charset._nu Charset._un].
  by rewrite !size_inserts_empty, fst_prod_swap.
Qed.

Lemma init_ok_inv d maps cs :
  Charset.__init__ d maps = Ok cs ->
  Forall (Forall valid_pair) maps /\ cs = built d maps /\
  distinct (pairs_of maps).*1 = 256%nat /\
  distinct (pairs_of maps).*2 = 256%nat.
Proof.
  intros Hi.
  assert (Forall (Forall valid_pair) maps) as Hm.
  { unfold Charset.__init__ in Hi.
    destruct (Charset.setchars_all _ maps) as [s [[]|e]] eqn:E; [|done].
    by apply setchars_all_ok_inv in E as [? _]. }
  split; [done|]. rewrite (init_valid _ _ Hm) in Hi. simpl in Hi.
  destruct (Nat.eqb _ _) eqn:E1; simpl in Hi; [|done].
  destruct (Nat.eqb _ 256) eqn:E2; simpl in Hi; [|done].
  apply Nat.eqb_eq in E1, E2. injection Hi as <-. split; [done|]. lia.
Qed.

(** A set of 256 codes of the range 0..255 is the whole range. *)
Lemma codes_complete (l : list Z) n :
  Forall (fun k => 0 <= k <= 255) l -> distinct l = 256%nat ->
  0 <= n <= 255 -> n ∈ l.
Proof.
  intros Hl Hd Hn.
  assert (list_to_set l = (list_to_set (seqZ 0 256) : gset Z)) as Heq.
  { apply set_subseteq_size_eq.
    - intros k. rewrite !elem_of_list_to_set, elem_of_seqZ.
      rewrite Forall_forall in Hl. intros Hk. apply Hl in Hk. lia.
    - rewrite (size_list_to_set_distinct l), Hd.
      rewrite size_list_to_set by apply NoDup_seqZ.
      by rewrite length_seqZ. }
  apply (elem_of_list_to_set (C := gset Z)). rewrite Heq.
  apply elem_of_list_to_set, elem_of_seqZ. lia.
Qed.

Lemma valid_codes l :
  Forall valid_pair l -> Forall (fun k => 0 <= k <= 255) l.*1.
Proof.
  induction 1 as [|[n u] l [Hn _] _ IH]; simpl; constructor; done.
Qed.

Lemma Forall_valid_concat maps :
  Forall (Forall valid_pair) maps -> Forall valid_pair (pairs_of maps).
Proof. apply Forall_concat. Qed.

Lemma init_complete d maps :
  Forall (Forall valid_pair) maps ->
  distinct (pairs_of maps).*1 = 256%nat ->
  distinct (pairs_of maps).*2 = 256%nat ->
  Charset.__init__ d maps = Ok (built d maps).
Proof.
  intros Hm H1 H2. rewrite (init_valid _ _ Hm). cbv zeta.
  by rewrite H1, H2.
Qed.

(** The two lookups on the object the constructor returns. *)
Lemma trans_built d maps n :
  Charset.trans (built d maps) n =
  let* _ := Charset._ncheck n in
  match last_value (pairs_of maps) n with
  | Some u => Ok u
  | None => Raise (KeyError_nu n)
  end.
Proof.
  unfold Charset.trans, built. cbn [Charset._nu].
  rewrite lookup_inserts, lookup_empty. by destruct (last_value _ _).
Qed.

Lemma native_built d maps u :
  Charset.native (built d maps) u =
  let* _ := Charset._ucheck u in
  match last_value (prod_swap <$> pairs_of maps) u with
  | Some n => bytes [n]
  | None => Raise (KeyError_un u)
  end.
Proof.
  unfold Charset.native, built. cbn [Charset._un].
  rewrite lookup_inserts, lookup_empty. by destruct (last_value _ _).
Qed.

Lemma check_not_valid n u :
  ~ valid_pair (n, u) ->
  exists e, (let* _ := Charset._ncheck n in Charset._ucheck u) = Raise e /\
    (e = ValueError_bad_native n \/ e = ValueError_not_str u \/
     e = ValueError_not_length_1 u).
Proof.
  intros Hnv. destruct (ncheck_cases n) as [[Hn ->]|[Hn ->]]; simpl.
  - destruct u as [[|c [|c' s]]| |]; simpl; eauto.
    exfalso. apply Hnv. split; [done|]. simpl. eauto.
  - eauto.
Qed.

Ltac table_facts :=
  first [ apply Forall_Forall_valid_pairb; vm_compute; reflexivity
        | vm_compute; reflexivity ].

Lemma init_shifted_table d :
  Charset.__init__ d [shifted_table] = Ok (built d [shifted_table]).
Proof. apply init_complete; table_facts. Qed.

Lemma init_stale_table d :
  Charset.__init__ d [stale_table] = Ok (built d [stale_table]).
Proof. apply init_complete; table_facts. Qed.

(* ===================================================================== *)
(** ** Properties of Charset *)
(* ===================================================================== *)

(** C1 (round trip [native(trans(n)) == bytes([n])] on every constructed
    Charset): the code does not ensure it.  The constructor accepts
    [stale_table], whose pairs cover 256 distinct codes and 256 distinct
    characters, and on the object it returns [trans(0)] is ['b'] and
    [native('b')] is [bytes([1])], which is not [bytes([0])]. *)
Theorem C1_round_trip_broken_on_stale_table :
  exists cs,
    Charset.__init__ (lit "x") [stale_table] = Ok cs /\
    Charset.trans cs 0 = Ok (PyStr (lit "b")) /\
    Charset.native cs (PyStr (lit "b")) = Ok [x01] /\
    (let* u := Charset.trans cs 0 in Charset.native cs u) = Ok [x01] /\
    bytes [0] = Ok [x00].
Proof.
  exists (built (lit "x") [stale_table]).
  split; [apply init_stale_table|].
  assert (Charset.trans (built (lit "x") [stale_table]) 0
          = Ok (PyStr (lit "b"))) as Ht.
  { rewrite trans_built. vm_compute. reflexivity. }
  assert (Charset.native (built (lit "x") [stale_table]) (PyStr (lit "b"))
          = Ok [x01]) as Hn.
  { rewrite native_built. vm_compute. reflexivity. }
  split; [exact Ht|]. split; [exact Hn|]. split; [|reflexivity].
  rewrite Ht. exact Hn.
Qed.

(** C2 (the forward table of a constructed Charset is one-to-one): the
    code does not ensure it.  On the Charset constructed from
    [stale_table] the distinct codes 0 and 1 both translate to ['b']. *)
Theorem C2_forward_table_not_injective_on_stale_table :
  exists cs,
    Charset.__init__ (lit "x") [stale_table] = Ok cs /\
    Charset.trans cs 0 = Ok (PyStr (lit "b")) /\
    Charset.trans cs 1 = Ok (PyStr (lit "b")) /\
    Charset._nu cs !! 0 = Charset._nu cs !! 1.
Proof.
  exists (built (lit "x") [stale_table]).
  split; [apply init_stale_table|].
  rewrite !trans_built. unfold built. cbn [Charset._nu].
  rewrite !lookup_inserts, !lookup_empty.
  repeat split; vm_compute; reflexivity.
Qed.

(** Where the round trip and the one-to-one forward table do hold: when
    the constructor returns and no character occurs twice in the pairs it
    was given, so that no assignment overwrote another. *)
Lemma NoDup_snd_unique (l : list codechar) a b u :
  NoDup l.*2 -> (a, u) ∈ l -> (b, u) ∈ l -> a = b.
Proof.
  induction l as [|[a0 u0] l IH]; simpl.
  - intros _ Ha. by apply elem_of_nil in Ha.
  - rewrite NoDup_cons, !elem_of_cons. intros [Hnin Hnd] [Ha|Ha] [Hb|Hb].
    + congruence.
    + injection Ha as -> ->. destruct Hnin.
      apply list_elem_of_fmap. by exists (b, u0).
    + injection Hb as -> ->. destruct Hnin.
      apply list_elem_of_fmap. by exists (a, u0).
    + by apply IH.
Qed.

Lemma round_trip_without_duplicates d maps cs n :
  Charset.__init__ d maps = Ok cs ->
  NoDup (pairs_of maps).*2 ->
  0 <= n <= 255 ->
  (let* u := Charset.trans cs n in Charset.native cs u) = bytes [n].
Proof.
  intros Hi Hnd Hr. apply init_ok_inv in Hi as (Hm & -> & Hn & _).
  apply Forall_valid_concat in Hm. rewrite Forall_forall in Hm.
  rewrite trans_built, (ncheck_ok _ Hr). simpl.
  destruct (last_value (pairs_of maps) n) as [u|] eqn:E.
  - apply last_value_Some in E. destruct (Hm _ E) as [_ [c Hc]].
    simpl in Hc. subst u. simpl. rewrite native_built. simpl.
    destruct (last_value (prod_swap <$> pairs_of maps) (PyStr [c]))
      as [n'|] eqn:E'.
    + apply last_value_Some, list_elem_of_fmap in E' as ([n2 u2] & Heq & Hin).
      injection Heq as <- <-.
      by rewrite (NoDup_snd_unique _ _ _ _ Hnd Hin E).
    + apply last_value_None in E'. destruct E'. rewrite fst_prod_swap.
      apply list_elem_of_fmap. by exists (n, PyStr [c]).
  - apply last_value_None in E. destruct E.
    apply codes_complete; [apply valid_codes; by rewrite Forall_forall|done..].
Qed.

Lemma forward_table_injective_without_duplicates d maps cs n m u :
  Charset.__init__ d maps = Ok cs ->
  NoDup (pairs_of maps).*2 ->
  Charset._nu cs !! n = Some u -> Charset._nu cs !! m = Some u -> n = m.
Proof.
  intros Hi Hnd. apply init_ok_inv in Hi as (_ & -> & _).
  unfold built. cbn [Charset._nu]. rewrite !lookup_inserts, !lookup_empty.
  destruct (last_value _ n) as [un|] eqn:En; [|done].
  destruct (last_value _ m) as [um|] eqn:Em; [|done].
  intros [= ->] [= ->]. apply last_value_Some in En, Em.
  exact (NoDup_snd_unique _ _ _ _ Hnd En Em).
Qed.

(** C3: on a Charset whose construction succeeded, [trans(n)] returns a
    one-character string for every [n] in 0..255, and for no integer [n]
    does [trans(n)] end in the [KeyError] of a missing table entry. *)
Theorem C3_trans_total d maps cs :
  Charset.__init__ d maps = Ok cs ->
  (forall n, 0 <= n <= 255 -> exists c, Charset.trans cs n = Ok (PyStr [c])) /\
  (forall n k, Charset.trans cs n <> Raise (KeyError_nu k)).
Proof.
  intros Hi. apply init_ok_inv in Hi as (Hm & -> & Hn & _).
  apply Forall_valid_concat in Hm.
  assert (forall n, 0 <= n <= 255 ->
            exists c, Charset.trans (built d maps) n = Ok (PyStr [c])) as Htot.
  { intros n Hr. rewrite trans_built, (ncheck_ok _ Hr). simpl.
    destruct (last_value (pairs_of maps) n) as [u|] eqn:E.
    - apply last_value_Some in E. rewrite Forall_forall in Hm.
      destruct (Hm _ E) as [_ [c Hc]]. simpl in Hc. subst u. eauto.
    - apply last_value_None in E. destruct E.
      apply codes_complete; [by apply valid_codes|done..]. }
  split; [done|]. intros n k.
  destruct (decide (0 <= n <= 255)) as [Hr|Hr].
  - destruct (Htot n Hr) as [c ->]. done.
  - unfold Charset.trans. rewrite ncheck_raise by lia. done.
Qed.

Lemma C3_trans_total_witness :
  Charset.__init__ (lit "x") [shifted_table]
    = Ok (built (lit "x") [shifted_table]) /\
  0 <= 0x41 <= 255 /\
  exists c, Charset.trans (built (lit "x") [shifted_table]) 0x41
            = Ok (PyStr [c]).
Proof.
  split; [apply init_shifted_table|]. split; [lia|].
  apply (C3_trans_total (lit "x") [shifted_table]);
    [apply init_shifted_table | lia].
Defined.

(** C4: when the pairs of the fragments (each a valid pair) cover fewer
    than 256 distinct native codes, or fewer than 256 distinct characters,
    the constructor raises the [RuntimeError] 'Incomplete Charset'; on any
    fragments with such a shortfall it raises; and when it returns, both
    dictionaries hold exactly 256 entries. *)
Theorem C4_incomplete_table_rejected d maps :
  ((distinct (pairs_of maps).*1 < 256)%nat \/
   (distinct (pairs_of maps).*2 < 256)%nat ->
   (Forall (Forall valid_pair) maps ->
    Charset.__init__ d maps =
    Raise (RuntimeError_incomplete (distinct (pairs_of maps).*1)
                                   (distinct (pairs_of maps).*2))) /\
   is_ok (Charset.__init__ d maps) = false) /\
  (forall cs, Charset.__init__ d maps = Ok cs ->
     size (Charset._nu cs) = 256%nat /\ size (Charset._un cs) = 256%nat).
Proof.
  split.
  - intros Hlt.
    assert (Forall (Forall valid_pair) maps ->
            Charset.__init__ d maps =
            Raise (RuntimeError_incomplete (distinct (pairs_of maps).*1)
                                           (distinct (pairs_of maps).*2))) as H1.
    { intros Hm. rewrite (init_valid _ _ Hm). cbv zeta.
      destruct (Nat.eqb (distinct (pairs_of maps).*1) _) eqn:E1; [|done].
      destruct (Nat.eqb _ 256) eqn:E2; [|done].
      apply Nat.eqb_eq in E1, E2. lia. }
    split; [done|].
    destruct (Charset.__init__ d maps) as [cs|e] eqn:E; [|done].
    apply init_ok_inv in E as (Hm & _ & ? & ?). lia.
  - intros cs Hi. apply init_ok_inv in Hi as (_ & -> & Hn & Hu).
    unfold built. cbn [Charset._nu Charset._un].
    by rewrite !size_inserts_empty, fst_prod_swap.
Qed.

Lemma C4_incomplete_table_rejected_witness :
  let maps := [[(0x41, PyStr (lit "A")); (0x42, PyStr (lit "B"))];
               [(0x42, PyStr (lit "C"))]] in
  ((distinct (pairs_of maps).*1 < 256)%nat \/
   (distinct (pairs_of maps).*2 < 256)%nat) /\
  Forall (Forall valid_pair) maps /\
  Charset.__init__ (lit "x") maps = Raise (RuntimeError_incomplete 2 3).
Proof.
  intros maps.
  assert ((distinct (pairs_of maps).*1 < 256)%nat \/
          (distinct (pairs_of maps).*2 < 256)%nat) as Hlt.
  { left. vm_compute. lia. }
  assert (Forall (Forall valid_pair) maps) as Hm.
  { apply Forall_Forall_valid_pairb. reflexivity. }
  split; [done|]. split; [done|].
  exact (proj1 (proj1 (C4_incomplete_table_rejected (lit "x") maps) Hlt) Hm).
Defined.

(** C7: on a constructed Charset [trans(-1)] and [trans(256)] raise the
    [ValueError] of the range check; and for every integer outside 0..255
    the same error is raised whatever the tables hold, so no lookup has
    taken place. *)
Theorem C7_trans_range_check :
  (forall d maps cs, Charset.__init__ d maps = Ok cs ->
     Charset.trans cs (-1) = Raise (ValueError_bad_native (-1)) /\
     Charset.trans cs 256 = Raise (ValueError_bad_native 256)) /\
  (forall (self : Charset.t) n, n < 0 \/ n > 255 ->
     Charset.trans self n = Raise (ValueError_bad_native n)).
Proof.
  split; [done|].
  intros self n Hn. unfold Charset.trans. by rewrite (ncheck_raise _ Hn).
Qed.

Lemma C7_trans_range_check_witness :
  Charset.__init__ (lit "x") [shifted_table]
    = Ok (built (lit "x") [shifted_table]) /\
  Charset.trans (built (lit "x") [shifted_table]) (-1)
    = Raise (ValueError_bad_native (-1)) /\
  Charset.trans (built (lit "x") [shifted_table]) 256
    = Raise (ValueError_bad_native 256) /\
  (300 < 0 \/ 300 > 255) /\
  Charset.trans (Charset.Make [] ∅ ∅) 300 = Raise (ValueError_bad_native 300).
Proof.
  split; [apply init_shifted_table|].
  destruct C7_trans_range_check as [H1 H2].
  destruct (H1 _ _ _ (init_shifted_table (lit "x"))) as [Ha Hb].
  split; [exact Ha|]. split; [exact Hb|].
  assert (300 < 0 \/ 300 > 255) as Hr by (right; lia).
  split; [exact Hr|]. exact (H2 _ 300 Hr).
Defined.

(** C9: [setchars] is not atomic.  When the pair at position
    [length pre] is the first one that fails a check, the call raises the
    [ValueError] of that check and leaves the object in the state that the
    update with the pairs before it alone produces: those pairs are in both
    dictionaries, the failing pair and the pairs after it are not
    applied. *)
Theorem C9_setchars_not_atomic self pre n u post :
  Forall valid_pair pre -> ~ valid_pair (n, u) ->
  exists e self',
    Charset.setchars self (pre ++ (n, u) :: post) = (self', Raise e) /\
    (e = ValueError_bad_native n \/ e = ValueError_not_str u \/
     e = ValueError_not_length_1 u) /\
    Charset.setchars self pre = (self', Ok tt) /\
    Charset._nu self' = inserts (Charset._nu self) pre /\
    Charset._un self' = inserts (Charset._un self) (prod_swap <$> pre).
Proof.
  intros Hpre Hnv. destruct (check_not_valid _ _ Hnv) as (e & He & Hk).
  exists e, (foldl put self pre).
  split; [by apply setchars_first_invalid|]. split; [done|].
  split; [by apply setchars_valid|].
  split; [apply foldl_put_nu | apply foldl_put_un].
Qed.

Lemma C9_setchars_not_atomic_witness :
  let self := Charset.Make (lit "x") ∅ ∅ in
  let pre := [(0x41, PyStr (lit "A"))] in
  Forall valid_pair pre /\ ~ valid_pair (300, PyStr (lit "B")) /\
  exists e self',
    Charset.setchars self (pre ++ [(300, PyStr (lit "B"));
                                   (0x43, PyStr (lit "C"))])
      = (self', Raise e) /\
    (e = ValueError_bad_native 300 \/ e = ValueError_not_str (PyStr (lit "B")) \/
     e = ValueError_not_length_1 (PyStr (lit "B"))) /\
    Charset.setchars self pre = (self', Ok tt) /\
    Charset._nu self' = inserts (Charset._nu self) pre /\
    Charset._un self' = inserts (Charset._un self) (prod_swap <$> pre).
Proof.
  intros self pre.
  assert (Forall valid_pair pre) as Hpre.
  { apply Forall_valid_pairb. reflexivity. }
  assert (~ valid_pair (300, PyStr (lit "B"))) as Hnv.
  { intros [Hr _]. simpl in Hr. lia. }
  split; [exact Hpre|]. split; [exact Hnv|].
  exact (C9_setchars_not_atomic self pre 300 (PyStr (lit "B"))
           [(0x43, PyStr (lit "C"))] Hpre Hnv).
Defined.

(* ===================================================================== *)
(** ** Properties of chrsub *)
(* ===================================================================== *)

Lemma chrsub_loop_spec cc r b acc :
  chrsub_loop cc r b acc =
  (b || existsb (fun m => m.1 =? r.1) cc, acc ++ (substituted r <$> cc)).
Proof.
  revert b acc. induction cc as [|m cc IH]; intros b acc; simpl.
  - by rewrite orb_false_r, app_nil_r.
  - unfold substituted at 1.
    destruct (m.1 =? r.1) eqn:E; rewrite IH, <- app_assoc; simpl.
    + by rewrite orb_true_r.
    + done.
Qed.

Lemma chrsub_spec cc r :
  chrsub cc r =
  if existsb (fun m => m.1 =? r.1) cc then Ok (substituted r <$> cc)
  else Raise (LookupError r).
Proof.
  unfold chrsub. rewrite chrsub_loop_spec. simpl.
  by destruct (existsb _ cc).
Qed.

Lemma existsb_code cc (r : codechar) :
  existsb (fun m : codechar => m.1 =? r.1) cc = true
  <-> exists m, m ∈ cc /\ m.1 = r.1.
Proof.
  rewrite existsb_exists. split; intros (m & Hm & Hc); exists m.
  - split; [by apply list_elem_of_In|lia].
  - split; [by apply list_elem_of_In|lia].
Qed.

Lemma substituted_other r m : m.1 <> r.1 -> substituted r m = m.
Proof. intros Hne. unfold substituted. by destruct (Z.eqb_spec m.1 r.1). Qed.

Lemma changed_substituted cc r :
  (changed cc (substituted r <$> cc) <= matches cc r)%nat.
Proof.
  unfold changed, matches. induction cc as [|m cc IH]; [done|].
  rewrite fmap_cons. cbn [zip zip_with]. rewrite !filter_cons.
  destruct (decide ((m, substituted r m).1 <> (m, substituted r m).2))
    as [Hp|Hp], (decide (m.1 = r.1)) as [Hq|Hq]; cbn [length]; try lia.
  destruct Hp. simpl. by rewrite substituted_other.
Qed.

(** C5, counterexample: with [[(1,'a'), (1,'b')]] and the replacement
    [(1,'c')] both pairs are replaced. *)
Lemma C5_chrsub_two_changed :
  chrsub [(1, PyStr (lit "a")); (1, PyStr (lit "b"))] (1, PyStr (lit "c"))
    = Ok [(1, PyStr (lit "c")); (1, PyStr (lit "c"))] /\
  changed [(1, PyStr (lit "a")); (1, PyStr (lit "b"))]
          [(1, PyStr (lit "c")); (1, PyStr (lit "c"))] = 2%nat /\
  ~ chrsub_changes_at_most_one
      [(1, PyStr (lit "a")); (1, PyStr (lit "b"))] (1, PyStr (lit "c")).
Proof.
  split; [reflexivity|]. split; [reflexivity|].
  intros Hc. destruct Hc as (ret & Hret & _ & Hch).
  - exists (1, PyStr (lit "a")). split; [left|reflexivity].
  - injection Hret as <-. vm_compute in Hch. lia.
Qed.

(** C5, amended: when the code of the replacement occurs in the fragment,
    [chrsub] returns a sequence of the same length whose element at each
    position is the replacement where the fragment has a pair with the
    replacement's code, and the fragment's own pair elsewhere.  The number
    of changed positions is at most the number of pairs with that code, so
    at most one when a single pair has it. *)
Theorem C5_chrsub_replaces_every_match cc r :
  (exists m, m ∈ cc /\ m.1 = r.1) ->
  exists ret, chrsub cc r = Ok ret /\
    length ret = length cc /\
    (forall i, ret !! i =
       (fun m : codechar => if decide (m.1 = r.1) then r else m) <$> cc !! i) /\
    (changed cc ret <= matches cc r)%nat /\
    ((matches cc r <= 1)%nat -> (changed cc ret <= 1)%nat).
Proof.
  intros Hex. apply existsb_code in Hex.
  exists (substituted r <$> cc). rewrite chrsub_spec, Hex.
  split; [done|]. split; [apply length_fmap|].
  pose proof (changed_substituted cc r) as Hch.
  split; [|split; [done|lia]].
  intros i. rewrite list_lookup_fmap.
  destruct (cc !! i) as [m|]; simpl; [|done]. f_equal.
  unfold substituted. destruct (Z.eqb_spec m.1 r.1), (decide (m.1 = r.1)); done.
Qed.

Lemma C5_chrsub_replaces_every_match_witness :
  let cc := [(0x41, PyStr (lit "A")); (0x42, PyStr (lit "B"))] in
  let r := (0x42, PyStr (lit "C")) in
  (exists m, m ∈ cc /\ m.1 = r.1) /\
  exists ret, chrsub cc r = Ok ret /\
    length ret = length cc /\
    (forall i, ret !! i =
       (fun m : codechar => if decide (m.1 = r.1) then r else m) <$> cc !! i) /\
    (changed cc ret <= matches cc r)%nat /\
    ((matches cc r <= 1)%nat -> (changed cc ret <= 1)%nat).
Proof.
  intros cc r.
  assert (exists m, m ∈ cc /\ m.1 = r.1) as Hex.
  { exists (0x42, PyStr (lit "B")). split; [right; left|reflexivity]. }
  split; [exact Hex|]. exact (C5_chrsub_replaces_every_match cc r Hex).
Defined.

(** C6: [chrsub] raises [LookupError] exactly when no pair of the fragment
    has the code of the replacement; it raises nothing else, and it
    returns when some pair has that code. *)
Theorem C6_chrsub_lookup_error cc r :
  (chrsub cc r = Raise (LookupError r)
   <-> ~ exists m, m ∈ cc /\ m.1 = r.1) /\
  ((exists m, m ∈ cc /\ m.1 = r.1) -> exists ret, chrsub cc r = Ok ret) /\
  (forall e, chrsub cc r = Raise e -> e = LookupError r).
Proof.
  rewrite chrsub_spec.
  destruct (existsb (fun m : codechar => m.1 =? r.1) cc) eqn:E.
  - apply existsb_code in E. split; [split; [done|tauto]|].
    split; [eauto|done].
  - assert (~ exists m, m ∈ cc /\ m.1 = r.1) as Hno.
    { rewrite <- existsb_code, E. done. }
    split; [tauto|]. split; [tauto|]. by intros e [= <-].
Qed.

Lemma C6_chrsub_lookup_error_witness :
  let cc := [(0x41, PyStr (lit "A")); (0x42, PyStr (lit "B"))] in
  ((~ exists m, m ∈ cc /\ m.1 = (0x99, PyStr (lit "Z")).1) /\
   chrsub cc (0x99, PyStr (lit "Z"))
     = Raise (LookupError (0x99, PyStr (lit "Z")))) /\
  ((exists m, m ∈ cc /\ m.1 = (0x42, PyStr (lit "C")).1) /\
   exists ret, chrsub cc (0x42, PyStr (lit "C")) = Ok ret).
Proof.
  intros cc. split.
  - assert (~ exists m, m ∈ cc /\ m.1 = (0x99, PyStr (lit "Z")).1) as Hno.
    { intros (m & Hm & Hc). unfold cc in Hm.
      rewrite !elem_of_cons, elem_of_nil in Hm.
      destruct Hm as [->|[->|[]]]; simpl in Hc; lia. }
    split; [exact Hno|].
    exact (proj2 (proj1 (C6_chrsub_lookup_error cc _)) Hno).
  - assert (exists m, m ∈ cc /\ m.1 = (0x42, PyStr (lit "C")).1) as Hex.
    { exists (0x42, PyStr (lit "B")). split; [right; left|reflexivity]. }
    split; [exact Hex|].
    exact (proj1 (proj2 (C6_chrsub_lookup_error cc _)) Hex).
Defined.

(* ===================================================================== *)
(** ** Properties of Unimplemented *)
(* ===================================================================== *)

(** C8: on every placeholder charset, [trans] and [native] raise
    [NotImplementedError] for every argument, with one message that does
    not depend on the argument and that contains the name the charset was
    declared with. *)
Theorem C8_unimplemented_always_raises :
  (forall (self : Unimplemented.t) (A : Type) (x : A),
     let msg := lit "charset '" ++ Unimplemented.name self ++ lit "' " in
     Unimplemented.trans self x = Raise (NotImplementedError msg) /\
     Unimplemented.native self x = Raise (NotImplementedError msg) /\
     contains (Unimplemented.name self) msg) /\
  (forall name description,
     Unimplemented.name (Unimplemented.__init__ name description) = name) /\
  (forall description (A : Type) (x : A),
     Unimplemented.trans (Unimplemented.__init__ (lit "foo") description) x
       = Raise (NotImplementedError (lit "charset 'foo' ")) /\
     Unimplemented.native (Unimplemented.__init__ (lit "foo") description) x
       = Raise (NotImplementedError (lit "charset 'foo' "))).
Proof.
  split; [|split; [done|done]].
  intros self A x msg. split; [done|]. split; [done|].
  by exists (lit "charset '"), (lit "' ").
Qed.

(* ===================================================================== *)
(** ** Properties of UTCharset *)
(* ===================================================================== *)

Ltac case_compare :=
  repeat match goal with
  | |- context [?a <? ?b] => destruct (Z.ltb_spec a b); try lia
  | |- context [?a >=? ?b] => destruct (Z.geb_spec a b); try lia
  end; simpl.

Lemma ut_trans_range n :
  0 <= n <= 255 -> UTCharset.trans n = Ok (PyStr [0xF000 + n]).
Proof.
  intros Hn. unfold UTCharset.trans, chr, unicode_max. by case_compare.
Qed.

Lemma ut_native_range c :
  0xF000 <= c < 0xF100 -> UTCharset.native (PyStr [c]) = Ok (c - 0xF000).
Proof.
  intros Hc. unfold UTCharset.native, UTCharset.native_cond. simpl.
  unfold str_geb. simpl. by case_compare.
Qed.

(** C10: the test charset is a one-to-one correspondence between the codes
    0..255 and the code points U+F000..U+F0FF: [trans(n)] is
    [chr(0xF000+n)], [native(trans(n))] is [n], and
    [trans(native(u))] is [u] for a one-character [u] in that range. *)
Theorem C10_utcharset_bijection :
  (forall n, 0 <= n <= 255 ->
     UTCharset.trans n = chr (0xF000 + n) /\
     UTCharset.trans n = Ok (PyStr [0xF000 + n]) /\
     (let* u := UTCharset.trans n in UTCharset.native u) = Ok n) /\
  (forall c, 0xF000 <= c < 0xF100 ->
     (let* k := UTCharset.native (PyStr [c]) in UTCharset.trans k)
       = Ok (PyStr [c])).
Proof.
  split.
  - intros n Hn. rewrite (ut_trans_range _ Hn). simpl.
    split; [|split; [done|]].
    + unfold chr, unicode_max. by case_compare.
    + rewrite ut_native_range by lia. f_equal. lia.
  - intros c Hc. rewrite (ut_native_range _ Hc). simpl.
    rewrite ut_trans_range by lia. do 3 f_equal. lia.
Qed.

Lemma C10_utcharset_bijection_witness :
  (0 <= 0x41 <= 255 /\
   UTCharset.trans 0x41 = chr (0xF000 + 0x41) /\
   UTCharset.trans 0x41 = Ok (PyStr [0xF000 + 0x41]) /\
   (let* u := UTCharset.trans 0x41 in UTCharset.native u) = Ok 0x41) /\
  (0xF000 <= 0xF0FF < 0xF100 /\
   (let* k := UTCharset.native (PyStr [0xF0FF]) in UTCharset.trans k)
     = Ok (PyStr [0xF0FF])).
Proof.
  destruct C10_utcharset_bijection as [H1 H2].
  assert (0 <= 0x41 <= 255) as Ha by lia.
  assert (0xF000 <= 0xF0FF < 0xF100) as Hb by lia.
  split; [split; [exact Ha|exact (H1 _ Ha)] | split; [exact Hb|exact (H2 _ Hb)]].
Defined.

(* ===================================================================== *)
(** ** Further lemmas on lists of assignments *)
(* ===================================================================== *)

Section distinct_facts.
Context {A : Type} `{EqDecision A}.
Implicit Types (l : list A) (x : A).

Lemma distinct_cons x l :
  distinct (x :: l) = if decide (x ∈ l) then distinct l else S (distinct l).
Proof.
  unfold distinct. cbn [remove_dups]. unfold decide_rel.
  destruct (list_elem_of_dec x l), (decide (x ∈ l)); done.
Qed.

Lemma distinct_le_length l : (distinct l <= length l)%nat.
Proof.
  induction l as [|x l IH]; [done|]. rewrite distinct_cons. simpl.
  destruct (decide (x ∈ l)); lia.
Qed.

Lemma distinct_NoDup l : NoDup l -> distinct l = length l.
Proof.
  induction 1 as [|x l Hx _ IH]; [done|]. rewrite distinct_cons. simpl.
  destruct (decide (x ∈ l)); [done|]. by rewrite IH.
Qed.

Lemma NoDup_distinct l : distinct l = length l -> NoDup l.
Proof.
  induction l as [|x l IH]; [constructor|]. rewrite distinct_cons. simpl.
  pose proof (distinct_le_length l).
  destruct (decide (x ∈ l)); [lia|]. intros Hd. constructor; [done|].
  apply IH. lia.
Qed.
End distinct_facts.

Section last_value_facts.
Context {K : Type} `{Countable K} {V : Type}.
Implicit Types (m : gmap K V) (l : list (K * V)) (k : K) (v : V).

Lemma last_value_app l1 l2 k :
  last_value (l1 ++ l2) k =
  match last_value l2 k with Some v => Some v | None => last_value l1 k end.
Proof.
  induction l1 as [|p l1 IH]; simpl.
  - by destruct (last_value l2 k).
  - rewrite IH. by destruct (last_value l2 k).
Qed.

(** The pair after which [k] is not assigned again gives the value. *)
Lemma last_value_last l1 l2 k v :
  k ∉ l2.*1 -> last_value (l1 ++ (k, v) :: l2) k = Some v.
Proof.
  intros Hk. apply last_value_None in Hk.
  rewrite last_value_app. simpl. rewrite Hk.
  by destruct (decide (k = k)).
Qed.

Lemma last_value_is_Some l k : k ∈ l.*1 -> is_Some (last_value l k).
Proof.
  intros Hk. destruct (last_value l k) eqn:E; [by eexists|].
  by apply last_value_None in E.
Qed.

Lemma NoDup_fst_unique l k v1 v2 :
  NoDup l.*1 -> (k, v1) ∈ l -> (k, v2) ∈ l -> v1 = v2.
Proof.
  induction l as [|[k0 v0] l IH]; simpl.
  - intros _ Ha. by apply elem_of_nil in Ha.
  - rewrite NoDup_cons, !elem_of_cons. intros [Hnin Hnd] [Ha|Ha] [Hb|Hb].
    + congruence.
    + injection Ha as -> ->. destruct Hnin.
      apply list_elem_of_fmap. by exists (k0, v2).
    + injection Hb as -> ->. destruct Hnin.
      apply list_elem_of_fmap. by exists (k0, v1).
    + by apply IH.
Qed.

(** Without a repeated key every pair gives the value of its key. *)
Lemma last_value_NoDup l k v :
  NoDup l.*1 -> (k, v) ∈ l -> last_value l k = Some v.
Proof.
  intros Hnd Hin.
  destruct (last_value_is_Some l k) as [v' Hv'].
  { apply list_elem_of_fmap. by exists (k, v). }
  rewrite Hv'. f_equal.
  exact (NoDup_fst_unique _ _ _ _ Hnd (last_value_Some _ _ _ Hv') Hin).
Qed.
End last_value_facts.

Lemma snd_prod_swap (l : list codechar) : (prod_swap <$> l).*2 = l.*1.
Proof. induction l as [|[n u] l IH]; [done|]. simpl. f_equal. exact IH. Qed.

Lemma elem_of_prod_swap (l : list codechar) n u :
  (u, n) ∈ prod_swap <$> l <-> (n, u) ∈ l.
Proof.
  rewrite list_elem_of_fmap. split.
  - intros ([n' u'] & Heq & Hin). by injection Heq as -> ->.
  - intros Hin. by exists (n, u).
Qed.

(* ===================================================================== *)
(** ** Further lemmas on the update loop *)
(* ===================================================================== *)

(** Whatever the pairs, the object is left as the update with a prefix of
    valid pairs leaves it. *)
Lemma setchars_state l self :
  exists pre post, l = pre ++ post /\ Forall valid_pair pre /\
    (Charset.setchars self l).1 = foldl put self pre.
Proof.
  revert self. induction l as [|[n u] l IH]; intros self.
  - exists [], []. by repeat split.
  - simpl.
    destruct (let* _ := Charset._ncheck n in Charset._ucheck u)
      as [[]|e] eqn:E.
    + destruct (IH (Charset.set_un (Charset.set_nu self n u) u n))
        as (pre & post & -> & Hpre & Hst).
      exists ((n, u) :: pre), post. split; [done|]. split; [|done].
      constructor; [|done]. by apply check_ok_iff.
    + exists [], ((n, u) :: l). by repeat split.
Qed.

(** Two updates in sequence are one update with the pairs in sequence. *)
Lemma setchars_app l1 l2 self :
  Charset.setchars self (l1 ++ l2) =
  match Charset.setchars self l1 with
  | (self', Ok _) => Charset.setchars self' l2
  | (self', Raise e) => (self', Raise e)
  end.
Proof.
  revert self. induction l1 as [|[n u] l1 IH]; intros self; simpl; [done|].
  destruct (let* _ := Charset._ncheck n in Charset._ucheck u) as [[]|e];
    [apply IH|done].
Qed.

Lemma setchars_all_concat maps self :
  Charset.setchars_all self maps = Charset.setchars self (concat maps).
Proof.
  revert self. induction maps as [|m maps IH]; intros self; simpl; [done|].
  rewrite setchars_app.
  destruct (Charset.setchars self m) as [self' [[]|e]]; [apply IH|done].
Qed.

Lemma trans_foldl_put self l n :
  Charset.trans (foldl put self l) n =
  let* _ := Charset._ncheck n in
  match last_value l n with
  | Some u => Ok u
  | None => match Charset._nu self !! n with
            | Some u => Ok u
            | None => Raise (KeyError_nu n)
            end
  end.
Proof.
  unfold Charset.trans. rewrite foldl_put_nu, lookup_inserts.
  by destruct (last_value l n).
Qed.

Lemma native_foldl_put self l u :
  Charset.native (foldl put self l) u =
  let* _ := Charset._ucheck u in
  match last_value (prod_swap <$> l) u with
  | Some n => bytes [n]
  | None => match Charset._un self !! u with
            | Some n => bytes [n]
            | None => Raise (KeyError_un u)
            end
  end.
Proof.
  unfold Charset.native. rewrite foldl_put_un, lookup_inserts.
  by destruct (last_value (prod_swap <$> l) u).
Qed.

Lemma bytes_one n : 0 <= n <= 255 -> exists b, bytes [n] = Ok [b].
Proof.
  intros Hn. simpl. unfold byte_of_int.
  destruct (n <? 0) eqn:E1; [lia|]. destruct (255 <? n) eqn:E2; [lia|].
  simpl. destruct (Byte.of_N (Z.to_N n)) as [b|] eqn:E; [by exists b|].
  apply Byte.of_N_None_iff in E. lia.
Qed.

Lemma built_nu_total d maps n :
  Forall (Forall valid_pair) maps ->
  distinct (pairs_of maps).*1 = 256%nat ->
  0 <= n <= 255 ->
  exists c, (n, PyStr [c]) ∈ pairs_of maps /\
            Charset._nu (built d maps) !! n = Some (PyStr [c]).
Proof.
  intros Hm Hd Hr. apply Forall_valid_concat in Hm.
  unfold built. cbn [Charset._nu]. rewrite lookup_inserts, lookup_empty.
  destruct (last_value_is_Some (pairs_of maps) n) as [u Hu].
  { apply codes_complete; [by apply valid_codes|done..]. }
  rewrite Hu. apply last_value_Some in Hu.
  rewrite Forall_forall in Hm. destruct (Hm _ Hu) as [_ [c Hc]].
  simpl in Hc. subst u. by exists c.
Qed.

Section distinct_snoc.
Context {A : Type} `{Countable A}.

Lemma distinct_snoc (l : list A) (x : A) :
  distinct (l ++ [x]) = if decide (x ∈ l) then distinct l else S (distinct l).
Proof.
  rewrite <- !size_list_to_set_distinct.
  rewrite (list_to_set_app_L (C := gset A)), (list_to_set_singleton (C := gset A)).
  destruct (decide (x ∈ l)) as [Hin|Hnin].
  - f_equal. rewrite (comm_L (∪)). apply subseteq_union_1_L. intros y Hy.
    apply elem_of_singleton in Hy. subst y. by apply elem_of_list_to_set.
  - rewrite size_union, size_singleton; [lia|].
    intros y Hy1 Hy2. apply elem_of_singleton in Hy2. subst y.
    by apply elem_of_list_to_set in Hy1.
Qed.
End distinct_snoc.

Lemma pairs_of_one l : pairs_of [l] = l.
Proof. unfold pairs_of. simpl. apply app_nil_r. Qed.

Lemma native_given_char d maps u :
  Forall (Forall valid_pair) maps -> u ∈ (pairs_of maps).*2 ->
  exists n b, (n, u) ∈ pairs_of maps /\ bytes [n] = Ok [b] /\
              Charset.native (built d maps) u = Ok [b].
Proof.
  intros Hm Hu. apply Forall_valid_concat in Hm. rewrite Forall_forall in Hm.
  rewrite native_built.
  destruct (last_value_is_Some (prod_swap <$> pairs_of maps) u) as [n Hn].
  { by rewrite fst_prod_swap. }
  rewrite Hn. apply last_value_Some, elem_of_prod_swap in Hn.
  destruct (Hm _ Hn) as [Hr Hc]. simpl in Hr, Hc.
  apply ucheck_ok_iff in Hc. rewrite Hc. cbn [rbind].
  destruct (bytes_one _ Hr) as [b Hb]. by exists n, b.
Qed.

(* ===================================================================== *)
(** ** Further properties of Charset *)
(* ===================================================================== *)

(** Two updates in sequence behave as one update with the pairs in
    sequence, also in the state and the error they stop with. *)
Theorem setchars_sequence self l1 l2 :
  Charset.setchars self (l1 ++ l2) =
  match Charset.setchars self l1 with
  | (self', Ok _) => Charset.setchars self' l2
  | (self', Raise e) => (self', Raise e)
  end.
Proof. apply setchars_app. Qed.

(** How the pairs are split into fragments does not matter to the
    constructor: the same pairs in the same order give the same object or
    the same exception. *)
Theorem init_regroup d maps1 maps2 :
  concat maps1 = concat maps2 ->
  Charset.__init__ d maps1 = Charset.__init__ d maps2.
Proof.
  intros Heq. unfold Charset.__init__.
  by rewrite !setchars_all_concat, Heq.
Qed.

Lemma init_regroup_witness :
  let a := (0x41, PyStr (lit "A")) in
  let b := (300, PyStr (lit "B")) in
  concat [[a]; [b]] = concat [[a; b]] /\
  Charset.__init__ (lit "x") [[a]; [b]] = Charset.__init__ (lit "x") [[a; b]].
Proof.
  intros a b.
  assert (concat [[a]; [b]] = concat [[a; b]]) as Heq by reflexivity.
  split; [exact Heq|]. exact (init_regroup (lit "x") _ _ Heq).
Defined.

(** After an update with valid pairs, a code translates to the character
    of the last pair that assigns it and a character encodes to the code
    of the last pair that assigns it; codes and characters that the update
    does not mention behave as before. *)
Theorem setchars_last_write_wins self l :
  Forall valid_pair l ->
  exists self',
    Charset.setchars self l = (self', Ok tt) /\
    (forall l1 n u l2, l = l1 ++ (n, u) :: l2 -> n ∉ l2.*1 ->
       Charset.trans self' n = Ok u) /\
    (forall l1 n u l2, l = l1 ++ (n, u) :: l2 -> u ∉ l2.*2 ->
       Charset.native self' u = bytes [n]) /\
    (forall n, n ∉ l.*1 -> Charset.trans self' n = Charset.trans self n) /\
    (forall u, u ∉ l.*2 -> Charset.native self' u = Charset.native self u).
Proof.
  intros Hl. exists (foldl put self l).
  split; [by apply setchars_valid|]. repeat split.
  - intros l1 n u l2 -> Hn. rewrite trans_foldl_put, last_value_last by done.
    rewrite Forall_app, Forall_cons in Hl. destruct Hl as (_ & [Hr _] & _).
    simpl in Hr. by rewrite (ncheck_ok _ Hr).
  - intros l1 n u l2 -> Hu. rewrite native_foldl_put.
    rewrite fmap_app, fmap_cons. simpl prod_swap.
    rewrite last_value_last by (by rewrite fst_prod_swap).
    rewrite Forall_app, Forall_cons in Hl. destruct Hl as (_ & [_ Hc] & _).
    simpl in Hc. apply ucheck_ok_iff in Hc. by rewrite Hc.
  - intros n Hn. rewrite trans_foldl_put.
    apply last_value_None in Hn. by rewrite Hn.
  - intros u Hu. rewrite native_foldl_put.
    rewrite <- fst_prod_swap in Hu. apply last_value_None in Hu.
    by rewrite Hu.
Qed.

Lemma setchars_last_write_wins_witness :
  let self := Charset.Make (lit "x") ∅ ∅ in
  let l := [(0x41, PyStr (lit "A")); (0x41, PyStr (lit "B"));
            (0x42, PyStr (lit "B"))] in
  Forall valid_pair l /\
  exists self',
    Charset.setchars self l = (self', Ok tt) /\
    (forall l1 n u l2, l = l1 ++ (n, u) :: l2 -> n ∉ l2.*1 ->
       Charset.trans self' n = Ok u) /\
    (forall l1 n u l2, l = l1 ++ (n, u) :: l2 -> u ∉ l2.*2 ->
       Charset.native self' u = bytes [n]) /\
    (forall n, n ∉ l.*1 -> Charset.trans self' n = Charset.trans self n) /\
    (forall u, u ∉ l.*2 -> Charset.native self' u = Charset.native self u).
Proof.
  intros self l.
  assert (Forall valid_pair l) as Hl.
  { apply Forall_valid_pairb. reflexivity. }
  split; [exact Hl|]. exact (setchars_last_write_wins self l Hl).
Defined.

(** An update never removes an entry, also when it raises: the keys of
    both dictionaries before the call are keys after it, and the
    description is unchanged. *)
Theorem setchars_keeps_entries self l :
  dom (Charset._nu self) ⊆ dom (Charset._nu (Charset.setchars self l).1) /\
  dom (Charset._un self) ⊆ dom (Charset._un (Charset.setchars self l).1) /\
  (size (Charset._nu self)
   <= size (Charset._nu (Charset.setchars self l).1))%nat /\
  (size (Charset._un self)
   <= size (Charset._un (Charset.setchars self l).1))%nat /\
  Charset.description (Charset.setchars self l).1 = Charset.description self.
Proof.
  destruct (setchars_state l self) as (pre & post & _ & _ & ->).
  rewrite foldl_put_nu, foldl_put_un, foldl_put_description.
  assert (dom (Charset._nu self) ⊆ dom (inserts (Charset._nu self) pre)) as H1.
  { rewrite dom_inserts. apply union_subseteq_r. }
  assert (dom (Charset._un self)
          ⊆ dom (inserts (Charset._un self) (prod_swap <$> pre))) as H2.
  { rewrite dom_inserts. apply union_subseteq_r. }
  split; [done|]. split; [done|].
  rewrite <- !(size_dom (D := gset _)).
  split; [by apply subseteq_size|]. split; [by apply subseteq_size|done].
Qed.

(** Translation stays total on a constructed Charset after any later
    update, also one that raises half-way. *)
Theorem trans_total_after_update d maps cs l n :
  Charset.__init__ d maps = Ok cs -> 0 <= n <= 255 ->
  exists c, Charset.trans (Charset.setchars cs l).1 n = Ok (PyStr [c]).
Proof.
  intros Hi Hr. apply init_ok_inv in Hi as (Hm & -> & Hn & _).
  destruct (setchars_state l (built d maps)) as (pre & post & _ & Hpre & ->).
  rewrite trans_foldl_put, (ncheck_ok _ Hr). cbn [rbind].
  destruct (last_value pre n) as [u|] eqn:E.
  - apply last_value_Some in E. rewrite Forall_forall in Hpre.
    destruct (Hpre _ E) as [_ [c Hc]]. simpl in Hc. subst u. by exists c.
  - destruct (built_nu_total d maps n Hm Hn Hr) as (c & _ & ->). by exists c.
Qed.

Lemma trans_total_after_update_witness :
  Charset.__init__ (lit "x") [shifted_table]
    = Ok (built (lit "x") [shifted_table]) /\
  0 <= 0x41 <= 255 /\
  exists c,
    Charset.trans
      (Charset.setchars (built (lit "x") [shifted_table])
         [(0x41, PyStr (lit "A")); (300, PyStr (lit "B"))]).1 0x41
    = Ok (PyStr [c]).
Proof.
  assert (0 <= 0x41 <= 255) as Hr by lia.
  split; [apply init_shifted_table|]. split; [exact Hr|].
  exact (trans_total_after_update (lit "x") [shifted_table] _
           [(0x41, PyStr (lit "A")); (300, PyStr (lit "B"))] 0x41
           (init_shifted_table (lit "x")) Hr).
Defined.

(** The character check of [native] comes before the lookup: an argument
    that is not a one-character string gets the [ValueError] of the check
    whatever the tables hold. *)
Theorem native_arity_check (self : Charset.t) u :
  (forall c, u <> PyStr [c]) ->
  exists e, Charset.native self u = Raise e /\
    ((exists s, u = PyStr s /\ length s <> 1%nat /\
                e = ValueError_not_length_1 u) \/
     ((forall s, u <> PyStr s) /\ e = ValueError_not_str u)).
Proof.
  intros Hu. unfold Charset.native.
  destruct u as [[|c [|c' s]]| |]; simpl.
  - eexists. split; [done|]. left. by exists [].
  - by destruct (Hu c).
  - eexists. split; [done|]. left. by exists (c :: c' :: s).
  - eexists. split; [done|]. by right.
  - eexists. split; [done|]. by right.
Qed.

Lemma native_arity_check_witness :
  (forall c, PyStr (lit "ab") <> PyStr [c]) /\
  exists e, Charset.native (Charset.Make [] ∅ ∅) (PyStr (lit "ab")) = Raise e /\
    ((exists s, PyStr (lit "ab") = PyStr s /\ length s <> 1%nat /\
                e = ValueError_not_length_1 (PyStr (lit "ab"))) \/
     ((forall s, PyStr (lit "ab") <> PyStr s) /\
      e = ValueError_not_str (PyStr (lit "ab")))).
Proof.
  assert (forall c, PyStr (lit "ab") <> PyStr [c]) as Hu by (intros c; discriminate).
  split; [exact Hu|].
  exact (native_arity_check (Charset.Make [] ∅ ∅) (PyStr (lit "ab")) Hu).
Defined.

(** On a constructed Charset [native] succeeds exactly on the characters
    of the pairs the constructor was given: for such a character it
    returns the one byte of a code it was paired with, and for every other
    one-character string it raises the [KeyError] of the lookup. *)
Theorem native_on_constructed d maps cs :
  Charset.__init__ d maps = Ok cs ->
  (forall u, u ∈ (pairs_of maps).*2 ->
     exists n b, (n, u) ∈ pairs_of maps /\ bytes [n] = Ok [b] /\
                 Charset.native cs u = Ok [b]) /\
  (forall c, PyStr [c] ∉ (pairs_of maps).*2 ->
     Charset.native cs (PyStr [c]) = Raise (KeyError_un (PyStr [c]))).
Proof.
  intros Hi. apply init_ok_inv in Hi as (Hm & -> & _). split.
  - intros u Hu. by apply native_given_char.
  - intros c Hc. rewrite native_built. simpl.
    rewrite <- fst_prod_swap in Hc. apply last_value_None in Hc.
    by rewrite Hc.
Qed.

Lemma native_on_constructed_witness :
  Charset.__init__ (lit "x") [shifted_table]
    = Ok (built (lit "x") [shifted_table]) /\
  (forall u, u ∈ (pairs_of [shifted_table]).*2 ->
     exists n b, (n, u) ∈ pairs_of [shifted_table] /\ bytes [n] = Ok [b] /\
                 Charset.native (built (lit "x") [shifted_table]) u = Ok [b]) /\
  (forall c, PyStr [c] ∉ (pairs_of [shifted_table]).*2 ->
     Charset.native (built (lit "x") [shifted_table]) (PyStr [c])
     = Raise (KeyError_un (PyStr [c]))).
Proof.
  split; [apply init_shifted_table|].
  exact (native_on_constructed (lit "x") [shifted_table] _
           (init_shifted_table (lit "x"))).
Defined.

(** On a constructed Charset the character that [trans] returns is always
    accepted by [native], which returns one byte for it (the byte need not
    be the code translated). *)
Theorem native_of_trans_succeeds d maps cs n :
  Charset.__init__ d maps = Ok cs -> 0 <= n <= 255 ->
  exists u b, Charset.trans cs n = Ok u /\ Charset.native cs u = Ok [b].
Proof.
  intros Hi Hr.
  apply init_ok_inv in Hi as (Hm & -> & Hn & _).
  destruct (built_nu_total d maps n Hm Hn Hr) as (c & Hin & Hlk).
  destruct (native_given_char d maps (PyStr [c]) Hm) as (n' & b & _ & _ & Hb).
  { apply list_elem_of_fmap. by exists (n, PyStr [c]). }
  exists (PyStr [c]), b. split; [|done].
  unfold Charset.trans. by rewrite (ncheck_ok _ Hr), Hlk.
Qed.

Lemma native_of_trans_succeeds_witness :
  Charset.__init__ (lit "x") [stale_table]
    = Ok (built (lit "x") [stale_table]) /\
  0 <= 0 <= 255 /\
  exists u b, Charset.trans (built (lit "x") [stale_table]) 0 = Ok u /\
              Charset.native (built (lit "x") [stale_table]) u = Ok [b].
Proof.
  assert (0 <= 0 <= 255) as Hr by lia.
  split; [apply init_stale_table|]. split; [exact Hr|].
  exact (native_of_trans_succeeds (lit "x") [stale_table] _ 0
           (init_stale_table (lit "x")) Hr).
Defined.

(** The constructor never returns when it is given fewer than 256 pairs in
    all (in particular no fragment, or only empty ones); when the pairs
    are valid the exception is the [RuntimeError] of the final check. *)
Theorem init_needs_256_pairs d maps :
  (length (pairs_of maps) < 256)%nat ->
  is_ok (Charset.__init__ d maps) = false /\
  (Forall (Forall valid_pair) maps ->
   exists nlen ulen, (nlen < 256)%nat /\
     Charset.__init__ d maps = Raise (RuntimeError_incomplete nlen ulen)).
Proof.
  intros Hlen.
  pose proof (distinct_le_length (pairs_of maps).*1) as Hle.
  rewrite length_fmap in Hle. split.
  - destruct (Charset.__init__ d maps) as [cs|e] eqn:E; [|done].
    apply init_ok_inv in E as (_ & _ & Hn & _). lia.
  - intros Hm. rewrite (init_valid _ _ Hm). cbv zeta.
    destruct (Nat.eqb (distinct (pairs_of maps).*1) _) eqn:E1.
    + destruct (Nat.eqb _ 256) eqn:E2.
      * apply Nat.eqb_eq in E1, E2. lia.
      * simpl. eexists _, _. split; [|done]. lia.
    + simpl. eexists _, _. split; [|done]. lia.
Qed.

Lemma init_needs_256_pairs_witness :
  (length (pairs_of ([] : list (list codechar))) < 256)%nat /\
  is_ok (Charset.__init__ (lit "x") []) = false /\
  (Forall (Forall valid_pair) [] ->
   exists nlen ulen, (nlen < 256)%nat /\
     Charset.__init__ (lit "x") [] = Raise (RuntimeError_incomplete nlen ulen)).
Proof.
  assert (length (pairs_of ([] : list (list codechar))) < 256)%nat as Hl.
  { simpl. lia. }
  split; [exact Hl|]. exact (init_needs_256_pairs (lit "x") [] Hl).
Defined.

(** A Charset constructed from exactly 256 pairs is a one-to-one
    correspondence: every pair given translates in both directions, both
    round trips hold and no two codes share a character. *)
Theorem exact_table_is_bijection d maps cs :
  Charset.__init__ d maps = Ok cs ->
  length (pairs_of maps) = 256%nat ->
  (forall n u, (n, u) ∈ pairs_of maps ->
     Charset.trans cs n = Ok u /\ Charset.native cs u = bytes [n]) /\
  (forall n, 0 <= n <= 255 ->
     (let* u := Charset.trans cs n in Charset.native cs u) = bytes [n]) /\
  (forall n m u, Charset.trans cs n = Ok u -> Charset.trans cs m = Ok u ->
     n = m).
Proof.
  intros Hi Hlen. pose proof Hi as Hi'.
  apply init_ok_inv in Hi' as (Hm & Hcs & Hn & Hu).
  assert (NoDup (pairs_of maps).*1) as Hnd1.
  { apply NoDup_distinct. by rewrite Hn, length_fmap. }
  assert (NoDup (pairs_of maps).*2) as Hnd2.
  { apply NoDup_distinct. by rewrite Hu, length_fmap. }
  apply Forall_valid_concat in Hm. rewrite Forall_forall in Hm.
  split; [|split].
  - intros n u Hin. destruct (Hm _ Hin) as [Hr Hc]. simpl in Hr, Hc.
    subst cs. rewrite trans_built, native_built.
    rewrite (ncheck_ok _ Hr). apply ucheck_ok_iff in Hc. rewrite Hc.
    cbn [rbind].
    rewrite (last_value_NoDup _ _ _ Hnd1 Hin).
    rewrite (last_value_NoDup (prod_swap <$> pairs_of maps) u n); [done|..].
    + by rewrite fst_prod_swap.
    + by apply elem_of_prod_swap.
  - intros n Hr. by apply (round_trip_without_duplicates d maps).
  - intros n m u Hn' Hm'.
    apply (forward_table_injective_without_duplicates d maps cs n m u);
      [done..| |].
    + unfold Charset.trans in Hn'.
      destruct (Charset._ncheck n); [|done]. simpl in Hn'.
      by destruct (Charset._nu cs !! n); simplify_eq.
    + unfold Charset.trans in Hm'.
      destruct (Charset._ncheck m); [|done]. simpl in Hm'.
      by destruct (Charset._nu cs !! m); simplify_eq.
Qed.

Lemma exact_table_is_bijection_witness :
  Charset.__init__ (lit "x") [shifted_table]
    = Ok (built (lit "x") [shifted_table]) /\
  length (pairs_of [shifted_table]) = 256%nat /\
  (forall n u, (n, u) ∈ pairs_of [shifted_table] ->
     Charset.trans (built (lit "x") [shifted_table]) n = Ok u /\
     Charset.native (built (lit "x") [shifted_table]) u = bytes [n]) /\
  (forall n, 0 <= n <= 255 ->
     (let* u := Charset.trans (built (lit "x") [shifted_table]) n in
      Charset.native (built (lit "x") [shifted_table]) u) = bytes [n]) /\
  (forall n m u,
     Charset.trans (built (lit "x") [shifted_table]) n = Ok u ->
     Charset.trans (built (lit "x") [shifted_table]) m = Ok u -> n = m).
Proof.
  assert (length (pairs_of [shifted_table]) = 256%nat) as Hl by reflexivity.
  split; [apply init_shifted_table|]. split; [exact Hl|].
  exact (exact_table_is_bijection (lit "x") [shifted_table] _
           (init_shifted_table (lit "x")) Hl).
Defined.

(** Overriding one code of a complete table by a later fragment fails when
    the new character is not yet in the table: the old character stays in
    the reverse dictionary, which then holds 257 entries. *)
Theorem override_with_new_character_fails d base cs n c :
  Charset.__init__ d [base] = Ok cs ->
  0 <= n <= 255 -> PyStr [c] ∉ base.*2 ->
  Charset.__init__ d [base; [(n, PyStr [c])]]
  = Raise (RuntimeError_incomplete 256 257).
Proof.
  intros Hi Hr Hc. apply init_ok_inv in Hi as (Hm & _ & Hn & Hu).
  rewrite pairs_of_one in Hn, Hu.
  assert (Forall valid_pair base) as Hb.
  { by apply Forall_cons in Hm as [? _]. }
  assert (valid_pair (n, PyStr [c])) as Hp.
  { split; [done|]. by exists c. }
  assert (Forall (Forall valid_pair) [base; [(n, PyStr [c])]]) as Hm'.
  { repeat (constructor; try done). }
  rewrite (init_valid _ _ Hm').
  assert (pairs_of [base; [(n, PyStr [c])]] = base ++ [(n, PyStr [c])]) as ->.
  { reflexivity. }
  rewrite !fmap_app. simpl fmap. rewrite !distinct_snoc.
  destruct (decide (n ∈ base.*1)) as [_|Hnin].
  - destruct (decide (PyStr [c] ∈ base.*2)); [done|].
    by rewrite Hn, Hu.
  - destruct Hnin. apply codes_complete; [|done..].
    by apply valid_codes.
Qed.

Lemma override_with_new_character_fails_witness :
  Charset.__init__ (lit "x") [shifted_table]
    = Ok (built (lit "x") [shifted_table]) /\
  0 <= 0x5C <= 255 /\ (PyStr [0xA5] ∉ shifted_table.*2) /\
  Charset.__init__ (lit "x") [shifted_table; [(0x5C, PyStr [0xA5])]]
  = Raise (RuntimeError_incomplete 256 257).
Proof.
  assert (0 <= 0x5C <= 255) as Hr by lia.
  assert (PyStr [0xA5] ∉ shifted_table.*2) as Hc.
  { apply (bool_decide_unpack _). vm_compute. reflexivity. }
  split; [apply init_shifted_table|]. split; [exact Hr|]. split; [exact Hc|].
  exact (override_with_new_character_fails (lit "x") shifted_table _ 0x5C 0xA5
           (init_shifted_table (lit "x")) Hr Hc).
Defined.

Lemma put_table_ok self p :
  valid_pair p -> table_ok self -> table_ok (put self p).
Proof.
  destruct p as [n u]. intros [Hr Hc] [H1 H2]. simpl in Hr, Hc.
  unfold put, Charset.set_un, Charset.set_nu. split; cbn.
  - intros m v Hm. apply lookup_insert_Some in Hm as [[<- <-]|[Hne Hm]].
    + split; [done|]. split; [done|]. rewrite lookup_insert_eq. by eexists.
    + destruct (H1 _ _ Hm) as (? & ? & Hs). split; [done|]. split; [done|].
      apply lookup_insert_is_Some. destruct (decide (u = v)); auto.
  - intros v m Hv. apply lookup_insert_Some in Hv as [[<- <-]|[Hne Hv]].
    + split; [done|]. split; [done|]. rewrite lookup_insert_eq. by eexists.
    + destruct (H2 _ _ Hv) as (? & ? & Hs). split; [done|]. split; [done|].
      apply lookup_insert_is_Some. destruct (decide (n = m)); auto.
Qed.

Lemma foldl_put_table_ok l self :
  Forall valid_pair l -> table_ok self -> table_ok (foldl put self l).
Proof.
  intros Hl. revert self. induction Hl as [|p l Hp _ IH]; intros self Hok;
    simpl; [done|].
  apply IH. by apply put_table_ok.
Qed.

(** The invariant of the dictionaries: it holds of the empty object, every
    update keeps it, also one that raises, and so it holds of every object
    the constructor returns.  Under it [native] never fails in [bytes] and
    [trans] returns one-character strings only. *)
Theorem setchars_keeps_table_ok :
  (forall d, table_ok (Charset.Make d ∅ ∅)) /\
  (forall self l, table_ok self -> table_ok (Charset.setchars self l).1) /\
  (forall d maps cs, Charset.__init__ d maps = Ok cs -> table_ok cs) /\
  (forall self u, table_ok self ->
     (exists b, Charset.native self u = Ok [b]) \/
     Charset.native self u = Raise (KeyError_un u) \/
     Charset.native self u = Raise (ValueError_not_str u) \/
     Charset.native self u = Raise (ValueError_not_length_1 u)).
Proof.
  assert (forall d, table_ok (Charset.Make d ∅ ∅)) as Hempty.
  { intros d. split; cbn; intros ?? Hl; by rewrite lookup_empty in Hl. }
  assert (forall self l, table_ok self ->
            table_ok (Charset.setchars self l).1) as Hkeep.
  { intros self l Hok.
    destruct (setchars_state l self) as (pre & post & _ & Hpre & ->).
    by apply foldl_put_table_ok. }
  split; [done|]. split; [done|]. split.
  - intros d maps cs Hi. apply init_ok_inv in Hi as (Hm & -> & _).
    rewrite <- foldl_put_built. apply foldl_put_table_ok; [|done].
    by apply Forall_valid_concat.
  - intros self u [_ H2]. unfold Charset.native.
    destruct u as [[|c [|c' s]]| |]; simpl; auto.
    destruct (Charset._un self !! PyStr [c]) as [n|] eqn:E; [|auto].
    destruct (H2 _ _ E) as (Hr & _). left.
    destruct (bytes_one _ Hr) as [b Hb]. exists b. exact Hb.
Qed.

Lemma setchars_keeps_table_ok_witness :
  table_ok (Charset.Make (lit "x") ∅ ∅) /\
  table_ok (Charset.setchars (Charset.Make (lit "x") ∅ ∅)
              [(0x41, PyStr (lit "A")); (300, PyStr (lit "B"))]).1.
Proof.
  destruct setchars_keeps_table_ok as (H1 & H2 & _).
  split; [exact (H1 _)|]. exact (H2 _ _ (H1 _)).
Defined.

(** The constructor returns exactly when every pair is valid and the pairs
    hold 256 distinct codes and 256 distinct characters; more than 256
    distinct characters are refused as well as fewer. *)
Theorem init_succeeds_iff d maps :
  is_ok (Charset.__init__ d maps) = true <->
  Forall (Forall valid_pair) maps /\
  distinct (pairs_of maps).*1 = 256%nat /\
  distinct (pairs_of maps).*2 = 256%nat.
Proof.
  split.
  - destruct (Charset.__init__ d maps) as [cs|e] eqn:E; [|done].
    intros _. by apply init_ok_inv in E as (? & _ & ? & ?).
  - intros (Hm & Hn & Hu). by rewrite (init_complete _ _ Hm Hn Hu).
Qed.

Lemma init_succeeds_iff_witness :
  (Forall (Forall valid_pair) [shifted_table] /\
   distinct (pairs_of [shifted_table]).*1 = 256%nat /\
   distinct (pairs_of [shifted_table]).*2 = 256%nat) /\
  is_ok (Charset.__init__ (lit "x") [shifted_table]) = true.
Proof.
  assert (Forall (Forall valid_pair) [shifted_table] /\
          distinct (pairs_of [shifted_table]).*1 = 256%nat /\
          distinct (pairs_of [shifted_table]).*2 = 256%nat) as Hc.
  { split; [|split]; table_facts. }
  split; [exact Hc|].
  exact (proj2 (init_succeeds_iff (lit "x") [shifted_table]) Hc).
Defined.

(** A pair that fails a check makes the constructor raise the
    [ValueError] of the first such pair, whatever the rest of the pairs
    and however many codes they cover. *)
Theorem init_first_invalid d maps pre n u post :
  pairs_of maps = pre ++ (n, u) :: post ->
  Forall valid_pair pre -> ~ valid_pair (n, u) ->
  exists e, Charset.__init__ d maps = Raise e /\
    (e = ValueError_bad_native n \/ e = ValueError_not_str u \/
     e = ValueError_not_length_1 u).
Proof.
  intros Heq Hpre Hnv. destruct (check_not_valid _ _ Hnv) as (e & He & Hk).
  exists e. split; [|done]. unfold Charset.__init__.
  rewrite setchars_all_concat. unfold pairs_of in Heq. rewrite Heq.
  by rewrite (setchars_first_invalid _ _ _ _ _ _ Hpre He).
Qed.

Lemma init_first_invalid_witness :
  let maps := [[(0x41, PyStr (lit "A"))];
               [(0x42, PyStr (lit "BB")); (300, PyStr (lit "C"))]] in
  pairs_of maps = [(0x41, PyStr (lit "A"))] ++ (0x42, PyStr (lit "BB")) ::
                  [(300, PyStr (lit "C"))] /\
  Forall valid_pair [(0x41, PyStr (lit "A"))] /\
  ~ valid_pair (0x42, PyStr (lit "BB")) /\
  exists e, Charset.__init__ (lit "x") maps = Raise e /\
    (e = ValueError_bad_native 0x42 \/ e = ValueError_not_str (PyStr (lit "BB")) \/
     e = ValueError_not_length_1 (PyStr (lit "BB"))).
Proof.
  intros maps.
  assert (pairs_of maps = [(0x41, PyStr (lit "A"))] ++
            (0x42, PyStr (lit "BB")) :: [(300, PyStr (lit "C"))]) as Heq.
  { reflexivity. }
  assert (Forall valid_pair [(0x41, PyStr (lit "A"))]) as Hpre.
  { apply Forall_valid_pairb. reflexivity. }
  assert (~ valid_pair (0x42, PyStr (lit "BB"))) as Hnv.
  { intros [_ [c Hc]]. simpl in Hc. discriminate. }
  split; [exact Heq|]. split; [exact Hpre|]. split; [exact Hnv|].
  exact (init_first_invalid (lit "x") maps _ _ _ _ Heq Hpre Hnv).
Defined.

(* ===================================================================== *)
(** ** Further properties of chrsub *)
(* ===================================================================== *)

Lemma substituted_fst r m : (substituted r m).1 = m.1.
Proof. unfold substituted. by destruct (Z.eqb_spec m.1 r.1). Qed.

Lemma substituted_match r m : m.1 = r.1 -> substituted r m = r.
Proof. intros Heq. unfold substituted. by destruct (Z.eqb_spec m.1 r.1). Qed.

Lemma substituted_idemp r m : substituted r (substituted r m) = substituted r m.
Proof.
  destruct (decide (m.1 = r.1)) as [Heq|Hne].
  - rewrite (substituted_match r m Heq). by apply substituted_match.
  - by rewrite !(substituted_other r m Hne).
Qed.

Lemma substituted_absent (r : codechar) (l : list codechar) :
  r.1 ∉ l.*1 -> substituted r <$> l = l.
Proof.
  induction l as [|m l IH]; [done|]. rewrite fmap_cons, not_elem_of_cons.
  intros [Hne Hl]. rewrite fmap_cons, IH by done.
  by rewrite substituted_other.
Qed.

Lemma existsb_code_fmap (r : codechar) (l : list codechar) :
  existsb (fun m : codechar => m.1 =? r.1) (substituted r <$> l)
  = existsb (fun m : codechar => m.1 =? r.1) l.
Proof.
  induction l as [|m l IH]; [done|]. rewrite fmap_cons. simpl.
  by rewrite IH, substituted_fst.
Qed.

(** [chrsub] changes no code and adds no pair but the replacement: the
    result has the codes of the input at the same positions, each of its
    pairs is the replacement or a pair of the input, and replacing again
    with the same pair returns the same sequence. *)
Theorem chrsub_keeps_codes cc r ret :
  chrsub cc r = Ok ret ->
  ret.*1 = cc.*1 /\
  (forall p, p ∈ ret -> p = r \/ p ∈ cc) /\
  r ∈ ret /\
  chrsub ret r = Ok ret.
Proof.
  rewrite chrsub_spec.
  destruct (existsb (fun m : codechar => m.1 =? r.1) cc) eqn:E; [|done].
  intros [= <-]. repeat split.
  - rewrite <- !list_fmap_compose. apply list_fmap_ext.
    intros ? m _. apply substituted_fst.
  - intros p Hp. apply list_elem_of_fmap in Hp as (m & -> & Hm).
    destruct (decide (m.1 = r.1)) as [Heq|Hne].
    + left. by apply substituted_match.
    + right. by rewrite substituted_other.
  - apply existsb_code in E as (m & Hm & Heq).
    apply list_elem_of_fmap. exists m. split; [|done].
    symmetry. by apply substituted_match.
  - rewrite chrsub_spec, existsb_code_fmap, E. f_equal.
    rewrite <- list_fmap_compose. apply list_fmap_ext.
    intros ? m _. apply substituted_idemp.
Qed.

Lemma chrsub_keeps_codes_witness :
  let cc := [(0x41, PyStr (lit "A")); (0x42, PyStr (lit "B"))] in
  let r := (0x42, PyStr (lit "C")) in
  let ret := [(0x41, PyStr (lit "A")); (0x42, PyStr (lit "C"))] in
  chrsub cc r = Ok ret /\
  ret.*1 = cc.*1 /\
  (forall p, p ∈ ret -> p = r \/ p ∈ cc) /\
  r ∈ ret /\
  chrsub ret r = Ok ret.
Proof.
  intros cc r ret.
  assert (chrsub cc r = Ok ret) as Hc by reflexivity.
  split; [exact Hc|]. exact (chrsub_keeps_codes cc r ret Hc).
Defined.

Lemma chrsub_middle l1 n u l2 u' :
  n ∉ l1.*1 -> n ∉ l2.*1 ->
  chrsub (l1 ++ (n, u) :: l2) (n, u') = Ok (l1 ++ (n, u') :: l2).
Proof.
  intros H1 H2. rewrite chrsub_spec.
  assert (existsb (fun m : codechar => m.1 =? (n, u').1) (l1 ++ (n, u) :: l2)
          = true) as ->.
  { apply existsb_code. exists (n, u). split; [|done].
    apply elem_of_app. right. left. }
  rewrite fmap_app, fmap_cons.
  rewrite !substituted_absent by done.
  by rewrite substituted_match.
Qed.

(** When one pair only has the code of the replacement, [chrsub] replaces
    that pair at its position and returns the others as they are. *)
Theorem chrsub_unique_code l1 n u l2 u' :
  n ∉ l1.*1 -> n ∉ l2.*1 ->
  chrsub (l1 ++ (n, u) :: l2) (n, u') = Ok (l1 ++ (n, u') :: l2).
Proof. apply chrsub_middle. Qed.

Lemma chrsub_unique_code_witness :
  (0x42 ∉ [(0x41, PyStr (lit "A"))].*1) /\
  (0x42 ∉ [(0x43, PyStr (lit "C"))].*1) /\
  chrsub ([(0x41, PyStr (lit "A"))] ++ (0x42, PyStr (lit "B")) ::
          [(0x43, PyStr (lit "C"))]) (0x42, PyStr (lit "Z"))
  = Ok ([(0x41, PyStr (lit "A"))] ++ (0x42, PyStr (lit "Z")) ::
        [(0x43, PyStr (lit "C"))]).
Proof.
  assert (0x42 ∉ [(0x41, PyStr (lit "A"))].*1) as H1.
  { apply (bool_decide_unpack _). reflexivity. }
  assert (0x42 ∉ [(0x43, PyStr (lit "C"))].*1) as H2.
  { apply (bool_decide_unpack _). reflexivity. }
  split; [exact H1|]. split; [exact H2|].
  exact (chrsub_unique_code _ 0x42 (PyStr (lit "B")) _ (PyStr (lit "Z")) H1 H2).
Defined.

Lemma last_value_other_key {K V} `{Countable K}
    (l1 l2 : list (K * V)) (k k' : K) (v : V) :
  k' <> k -> last_value (l1 ++ (k', v) :: l2) k = last_value (l1 ++ l2) k.
Proof.
  intros Hne. rewrite !last_value_app. simpl.
  destruct (last_value l2 k); [done|]. by destruct (decide (k' = k)).
Qed.

Lemma NoDup_middle {A} (l1 l2 : list A) (x : A) :
  NoDup (l1 ++ x :: l2) -> (x ∉ l1) /\ (x ∉ l2).
Proof.
  rewrite NoDup_app, NoDup_cons. intros (_ & Hd & Hx & _). split; [|done].
  intros Hin. apply (Hd _ Hin). left.
Qed.

Lemma NoDup_replace_middle {A} (l1 l2 : list A) (x y : A) :
  NoDup (l1 ++ x :: l2) -> y ∉ l1 ++ x :: l2 -> NoDup (l1 ++ y :: l2).
Proof.
  rewrite !NoDup_app, !NoDup_cons, !not_elem_of_app, !not_elem_of_cons.
  intros (H1 & Hd & Hx & H2) (Hy1 & _ & Hy2). split; [done|].
  split; [|done]. intros z Hz. rewrite not_elem_of_cons. split.
  - intros ->. done.
  - specialize (Hd _ Hz). by apply not_elem_of_cons in Hd as [_ ?].
Qed.

(** The use [chrsub] is made for: replacing, in a table of 256 pairs that
    the constructor accepts, the character of one code by a character that
    is not in the table gives a table that the constructor accepts too; on
    the new Charset that code and the new character translate to each
    other, and every other code translates as before. *)
Theorem chrsub_customises_table d cc cs n c :
  Charset.__init__ d [cc] = Ok cs ->
  length cc = 256%nat -> 0 <= n <= 255 -> PyStr [c] ∉ cc.*2 ->
  exists ret cs',
    chrsub cc (n, PyStr [c]) = Ok ret /\
    Charset.__init__ d [ret] = Ok cs' /\
    Charset.trans cs' n = Ok (PyStr [c]) /\
    Charset.native cs' (PyStr [c]) = bytes [n] /\
    (forall m, m <> n -> Charset.trans cs' m = Charset.trans cs m).
Proof.
  intros Hi Hlen Hr Hc. apply init_ok_inv in Hi as (Hm & -> & Hn & Hu).
  rewrite pairs_of_one in Hn, Hu.
  assert (Forall valid_pair cc) as Hb by (by apply Forall_cons in Hm as [? _]).
  assert (NoDup cc.*1) as Hnd1.
  { apply NoDup_distinct. by rewrite Hn, length_fmap. }
  assert (NoDup cc.*2) as Hnd2.
  { apply NoDup_distinct. by rewrite Hu, length_fmap. }
  assert (n ∈ cc.*1) as Hin by (apply codes_complete; [by apply valid_codes|done..]).
  apply list_elem_of_fmap in Hin as ([n0 u0] & Heq & Hin). simpl in Heq. subst n0.
  apply list_elem_of_split in Hin as (l1 & l2 & ->).
  rewrite fmap_app, fmap_cons in Hnd1. rewrite fmap_app, fmap_cons in Hnd2.
  rewrite fmap_app, fmap_cons in Hc. rewrite fmap_app, fmap_cons in Hn.
  rewrite fmap_app, fmap_cons in Hu. simpl in Hnd1, Hnd2, Hc.
  destruct (NoDup_middle _ _ _ Hnd1) as [Hn1 Hn2].
  pose proof (NoDup_replace_middle _ _ _ _ Hnd2 Hc) as Hnd2'.
  apply not_elem_of_app in Hc as [_ Hc]. apply not_elem_of_cons in Hc as [_ Hc2].
  set (ret := l1 ++ (n, PyStr [c]) :: l2).
  assert (Forall valid_pair ret) as Hv.
  { apply Forall_app in Hb as [Hb1 Hb2]. apply Forall_cons in Hb2 as [_ Hb2].
    apply Forall_app. split; [done|]. constructor; [|done].
    split; [done|]. by exists c. }
  assert (Charset.__init__ d [ret] = Ok (built d [ret])) as Hinit.
  { apply init_complete; rewrite ?pairs_of_one.
    - by repeat constructor.
    - unfold ret. by rewrite fmap_app, fmap_cons.
    - unfold ret. rewrite fmap_app, fmap_cons. simpl.
      rewrite (distinct_NoDup _ Hnd2'). rewrite <- Hlen.
      rewrite !length_app. simpl. by rewrite !length_fmap. }
  exists ret, (built d [ret]).
  split; [by apply chrsub_middle|]. split; [done|].
  rewrite !trans_built, native_built, !pairs_of_one. repeat split.
  - unfold ret. rewrite last_value_last by done. by rewrite (ncheck_ok _ Hr).
  - unfold ret. rewrite fmap_app, fmap_cons. simpl.
    rewrite last_value_last; [done|]. by rewrite fst_prod_swap.
  - intros m Hne. rewrite !trans_built, !pairs_of_one. unfold ret.
    assert (n <> m) as Hne' by congruence.
    by rewrite !(last_value_other_key l1 l2 m n _ Hne').
Qed.

Lemma chrsub_customises_table_witness :
  Charset.__init__ (lit "x") [shifted_table]
    = Ok (built (lit "x") [shifted_table]) /\
  length shifted_table = 256%nat /\ 0 <= 0x5C <= 255 /\
  (PyStr [0xA5] ∉ shifted_table.*2) /\
  exists ret cs',
    chrsub shifted_table (0x5C, PyStr [0xA5]) = Ok ret /\
    Charset.__init__ (lit "x") [ret] = Ok cs' /\
    Charset.trans cs' 0x5C = Ok (PyStr [0xA5]) /\
    Charset.native cs' (PyStr [0xA5]) = bytes [0x5C] /\
    (forall m, m <> 0x5C ->
       Charset.trans cs' m = Charset.trans (built (lit "x") [shifted_table]) m).
Proof.
  assert (length shifted_table = 256%nat) as Hl by reflexivity.
  assert (0 <= 0x5C <= 255) as Hr by lia.
  assert (PyStr [0xA5] ∉ shifted_table.*2) as Hc.
  { apply (bool_decide_unpack _). vm_compute. reflexivity. }
  split; [apply init_shifted_table|]. split; [exact Hl|].
  split; [exact Hr|]. split; [exact Hc|].
  exact (chrsub_customises_table (lit "x") shifted_table _ 0x5C 0xA5
           (init_shifted_table (lit "x")) Hl Hr Hc).
Defined.

(* ===================================================================== *)
(** ** Further properties of UTCharset *)
(* ===================================================================== *)

(** [UTCharset.trans] returns exactly for the codes 0..255, and then a
    character of U+F000..U+F0FF, so never an ASCII one; for every other
    integer the assertion fails, and [chr] is never the one to raise. *)
Theorem utcharset_trans_cases n :
  (forall u, UTCharset.trans n = Ok u
     <-> 0 <= n <= 255 /\ u = PyStr [0xF000 + n]) /\
  (n < 0 \/ n > 255 -> UTCharset.trans n = Raise (AssertionError (PyInt n))) /\
  (forall c, UTCharset.trans n = Ok (PyStr [c]) -> 0xF000 <= c <= 0xF0FF).
Proof.
  assert (n < 0 \/ n > 255 ->
          UTCharset.trans n = Raise (AssertionError (PyInt n))) as Hout.
  { intros Hn. unfold UTCharset.trans. by case_compare. }
  assert (forall u, UTCharset.trans n = Ok u
            <-> 0 <= n <= 255 /\ u = PyStr [0xF000 + n]) as Hiff.
  { intros u. destruct (decide (0 <= n <= 255)) as [Hr|Hr].
    - rewrite (ut_trans_range _ Hr). split.
      + by intros [= <-].
      + by intros [_ ->].
    - rewrite Hout by lia. split; [done|]. by intros [? _]. }
  split; [done|]. split; [done|].
  intros c Hc. apply Hiff in Hc as [Hr [= ->]]. lia.
Qed.

Lemma utcharset_trans_cases_witness :
  (forall u, UTCharset.trans 300 = Ok u
     <-> 0 <= 300 <= 255 /\ u = PyStr [0xF000 + 300]) /\
  (300 < 0 \/ 300 > 255) /\
  UTCharset.trans 300 = Raise (AssertionError (PyInt 300)) /\
  (forall c, UTCharset.trans 300 = Ok (PyStr [c]) -> 0xF000 <= c <= 0xF0FF).
Proof.
  destruct (utcharset_trans_cases 300) as (H1 & H2 & H3).
  assert (300 < 0 \/ 300 > 255) as Hr by (right; lia).
  split; [exact H1|]. split; [exact Hr|]. split; [exact (H2 Hr)|exact H3].
Defined.

Lemma ut_native_out_of_range c :
  c < 0xF000 \/ 0xF100 <= c ->
  UTCharset.native (PyStr [c]) = Raise (AssertionError (PyStr [c])).
Proof.
  intros Hc. unfold UTCharset.native, UTCharset.native_cond. simpl.
  unfold str_geb. simpl.
  destruct (Z.ltb_spec c 61440); [done|]. simpl.
  destruct (Z.ltb_spec 61440 c); simpl;
    destruct (Z.ltb_spec c 61696); simpl; try lia;
    destruct (Z.ltb_spec 61696 c); simpl; done.
Qed.

(** [UTCharset.native] returns exactly for the one-character strings of
    U+F000..U+F0FF, and then a code of 0..255 that [trans] maps back to the
    argument; a string of another length or outside that range fails the
    assertion, and an object without a length raises [TypeError]. *)
Theorem utcharset_native_cases u :
  (forall k, UTCharset.native u = Ok k
     <-> exists c, u = PyStr [c] /\ 0xF000 <= c < 0xF100 /\ k = c - 0xF000) /\
  (forall k, UTCharset.native u = Ok k ->
     0 <= k <= 255 /\ UTCharset.trans k = Ok u) /\
  (forall s, u = PyStr s ->
     (forall c, s = [c] -> c < 0xF000 \/ 0xF100 <= c) ->
     UTCharset.native u = Raise (AssertionError u)) /\
  ((forall s, u <> PyStr s) -> UTCharset.native u = Raise (TypeError u)).
Proof.
  assert (forall k, UTCharset.native u = Ok k
            <-> exists c, u = PyStr [c] /\ 0xF000 <= c < 0xF100 /\
                          k = c - 0xF000) as Hiff.
  { intros k. split.
    - destruct u as [[|c [|c' s]]| |]; try done.
      destruct (decide (0xF000 <= c < 0xF100)) as [Hc|Hc].
      + rewrite (ut_native_range _ Hc). intros [= <-]. by exists c.
      + rewrite ut_native_out_of_range by lia. done.
    - intros (c & -> & Hc & ->). by apply ut_native_range. }
  split; [done|]. split; [|split].
  - intros k Hk. apply Hiff in Hk as (c & -> & Hc & ->). split; [lia|].
    rewrite ut_trans_range by lia. do 3 f_equal. lia.
  - intros s -> Hs. destruct s as [|c [|c' s]]; [done| |done].
    apply ut_native_out_of_range. by apply Hs.
  - intros Hu. destruct u as [s| |]; [by destruct (Hu s)|done..].
Qed.

Lemma utcharset_native_cases_witness :
  (forall c, [0x41] = [c] -> c < 0xF000 \/ 0xF100 <= c) /\
  UTCharset.native (PyStr ([0x41])) = Raise (AssertionError (PyStr ([0x41]))) /\
  (forall s, PyInt 65 <> PyStr s) /\
  UTCharset.native (PyInt 65) = Raise (TypeError (PyInt 65)) /\
  (UTCharset.native (PyStr [0xF041]) = Ok 0x41 ->
   0 <= 0x41 <= 255 /\ UTCharset.trans 0x41 = Ok (PyStr [0xF041])).
Proof.
  assert (forall c, [0x41] = [c] -> c < 0xF000 \/ 0xF100 <= c) as Ha.
  { intros c [= <-]. left. lia. }
  assert (forall s, PyInt 65 <> PyStr s) as Hb by (intros s; discriminate).
  split; [exact Ha|].
  split; [exact (proj1 (proj2 (proj2 (utcharset_native_cases (PyStr ([0x41])))))
                   _ eq_refl Ha)|].
  split; [exact Hb|].
  split; [exact (proj2 (proj2 (proj2 (utcharset_native_cases (PyInt 65)))) Hb)|].
  exact (proj1 (proj2 (utcharset_native_cases (PyStr [0xF041]))) 0x41).
Defined.

(* ===================================================================== *)
(** ** The examples of the specification *)
(* ===================================================================== *)

Example chrsub_replaces_0x42 :
  chrsub [(0x41, PyStr (lit "A")); (0x42, PyStr (lit "B"))]
         (0x42, PyStr (lit "C"))
  = Ok [(0x41, PyStr (lit "A")); (0x42, PyStr (lit "C"))].
Proof. reflexivity. Qed.

Example chrsub_0x99_absent :
  chrsub [(0x41, PyStr (lit "A")); (0x42, PyStr (lit "B"))]
         (0x99, PyStr (lit "Z"))
  = Raise (LookupError (0x99, PyStr (lit "Z"))).
Proof. reflexivity. Qed.

Example native_arity (self : Charset.t) :
  Charset.native self (PyStr (lit ""))
    = Raise (ValueError_not_length_1 (PyStr (lit ""))) /\
  Charset.native self (PyStr (lit "ab"))
    = Raise (ValueError_not_length_1 (PyStr (lit "ab"))) /\
  Charset.native self (PyInt 65) = Raise (ValueError_not_str (PyInt 65)).
Proof. repeat split. Qed.

Example utcharset_native_0xF005 : UTCharset.native (PyStr [0xF005]) = Ok 5.
Proof. reflexivity. Qed.

Example utcharset_native_0xF100 :
  UTCharset.native (PyStr [0xF100]) = Raise (AssertionError (PyStr [0xF100])).
Proof. reflexivity. Qed.

Example utcharset_trans_256 :
  UTCharset.trans 256 = Raise (AssertionError (PyInt 256)).
Proof. reflexivity. Qed.
